(** * HRF retrieval: a shallow embedding of [hrf.py]

    The class [HrfRetrieval] of [hrf.py] estimates hemodynamic response
    functions from an fMRI timecourse and an event table.  This file embeds
    its three methods ([__init__], [getFIRmodel], [estimateHRF]) and proves
    the properties of the peristimulus grid, of the FIR design matrices and
    of the two estimators.

    Number model.  Python scalars ([TR], [ER], window bounds) are exact
    rationals [Q]; scalar division by zero raises [ZeroDivisionError] as in
    Python.  The cells of numpy float arrays are [npfloat]: an exact
    rational or one of the IEEE special values [inf], [-inf], [nan], with
    the IEEE rules for them (there is no negative zero).  Binary64 rounding
    error is not modelled: arithmetic on finite values is exact. *)

From Stdlib Require Import ZArith QArith Qround Qabs Lia Lqa.
From stdpp Require Import base list strings.

Local Open Scope Z_scope.
Local Open Scope Q_scope.

(** Lists are handled with stdpp's functions; [map] is its [fmap]. *)
Abbreviation map := (@fmap list list_fmap _ _) (only parsing).

(* ================================================================== *)
(** * Python scalars and exceptions *)
(* ================================================================== *)

Module Py.

(** The exceptions the embedded code can raise. *)
Inductive exn : Type :=
| ZeroDivisionError
| ValueError
| IndexError
| AttributeError
| LinAlgError
| UserDefinedException (str : string).

Inductive result (A : Type) : Type :=
| Ok (a : A)
| Raise (e : exn).
Arguments Ok {A} a.
Arguments Raise {A} e.

Definition rbind {A B} (r : result A) (k : A -> result B) : result B :=
  match r with
  | Ok a => k a
  | Raise e => Raise e
  end.

(** [x / y] on Python floats. *)
Definition truediv (x y : Q) : result Q :=
  if Qeq_bool y 0 then Raise ZeroDivisionError else Ok (x / y).

(** [round(x)] on a Python float: the nearest integer, halves to the
    even neighbour. *)
Definition round (x : Q) : Z :=
  let f := Qfloor x in
  match Qcompare (x - inject_Z f) (1 # 2) with
  | Lt => f
  | Gt => (f + 1)%Z
  | Eq => if Z.even f then f else (f + 1)%Z
  end.

(** [x < y]. *)
Definition lt (x y : Q) : bool := negb (Qle_bool y x).

(** [abs(x)]. *)
Definition abs (x : Q) : Q := Qabs x.

(** [l[i]] on a Python list. *)
Definition getitem {A} (l : list A) (i : nat) : result A :=
  match l !! i with
  | Some a => Ok a
  | None => Raise IndexError
  end.

End Py.

Export Py.

Declare Scope py_scope.
Delimit Scope py_scope with py.
Notation "x <- r ;; k" := (rbind r (fun x => k))
  (at level 100, r at next level, right associativity) : py_scope.

(* ================================================================== *)
(** * numpy: float cells and array functions *)
(* ================================================================== *)

Module Np.

(** A cell of a float array. *)
Inductive npfloat : Type :=
| Fin (q : Q)
| PInf
| NInf
| NaN.

Definition fneg (x : npfloat) : npfloat :=
  match x with
  | Fin q => Fin (- q)
  | PInf => NInf
  | NInf => PInf
  | NaN => NaN
  end.

Definition fadd (x y : npfloat) : npfloat :=
  match x, y with
  | NaN, _ | _, NaN => NaN
  | PInf, NInf | NInf, PInf => NaN
  | PInf, _ | _, PInf => PInf
  | NInf, _ | _, NInf => NInf
  | Fin a, Fin b => Fin (a + b)
  end.

Definition fsub (x y : npfloat) : npfloat := fadd x (fneg y).

(** The infinity whose sign is that of [s] times [q]; [s] is [true] for
    plus. *)
Definition inf_signed (s : bool) (q : Q) : npfloat :=
  if Qeq_bool q 0 then NaN
  else if Bool.eqb s (Qle_bool 0 q) then PInf else NInf.

Definition fmul (x y : npfloat) : npfloat :=
  match x, y with
  | NaN, _ | _, NaN => NaN
  | PInf, PInf | NInf, NInf => PInf
  | PInf, NInf | NInf, PInf => NInf
  | PInf, Fin q | Fin q, PInf => inf_signed true q
  | NInf, Fin q | Fin q, NInf => inf_signed false q
  | Fin a, Fin b => Fin (a * b)
  end.

(** Array division: a zero divisor gives [nan] or an infinity, never an
    exception. *)
Definition fdiv (x y : npfloat) : npfloat :=
  match x, y with
  | NaN, _ | _, NaN => NaN
  | (PInf | NInf), (PInf | NInf) => NaN
  | Fin _, (PInf | NInf) => Fin 0
  | PInf, Fin q => if Qle_bool 0 q then PInf else NInf
  | NInf, Fin q => if Qle_bool 0 q then NInf else PInf
  | Fin a, Fin b =>
      if Qeq_bool b 0 then
        (if Qeq_bool a 0 then NaN else if Qle_bool 0 a then PInf else NInf)
      else Fin (a / b)
  end.

(** [x == y] on cells: [nan] equals nothing. *)
Definition feqb (x y : npfloat) : bool :=
  match x, y with
  | Fin a, Fin b => Qeq_bool a b
  | PInf, PInf | NInf, NInf => true
  | _, _ => false
  end.

(** [np.round]: nearest integer, halves to even, as a float. *)
Definition round (x : npfloat) : npfloat :=
  match x with
  | Fin q => Fin (inject_Z (Py.round q))
  | _ => x
  end.

(** [np.fix] on a finite value: truncation towards zero. *)
Definition fixZ (q : Q) : Z :=
  if Qle_bool 0 q then Qfloor q else Qceiling q.

Definition fix_ (x : npfloat) : npfloat :=
  match x with
  | Fin q => Fin (inject_Z (fixZ q))
  | _ => x
  end.

(** [np.floor] of a Python float. *)
Definition floor (q : Q) : Z := Qfloor q.

(** Truth value of [np.mod(x, y)] on Python floats: the remainder has the
    sign of the divisor; with a zero divisor it is [nan], which is true. *)
Definition mod_ (x y : Q) : npfloat :=
  if Qeq_bool y 0 then NaN
  else Fin (x - inject_Z (Qfloor (x / y)) * y).

Definition truth (x : npfloat) : bool :=
  match x with
  | Fin q => negb (Qeq_bool q 0)
  | _ => true
  end.

(** [np.arange(start, stop, step)] on floats: [ceil((stop-start)/step)]
    values [start + i*step]; a zero step is an error. *)
Definition arange (start stop step : Q) : result (list Q) :=
  if Qeq_bool step 0 then Raise ZeroDivisionError
  else
    let n := Z.to_nat (Qceiling ((stop - start) / step)) in
    Ok (map (fun i : nat => start + inject_Z (Z.of_nat i) * step) (seq 0 n)).

End Np.

Export Np.

(** A 2-D float array: its shape and its rows.  The shape is kept because
    the rows alone do not determine it when a dimension is zero. *)
Record matrix : Type := {
  nrows : nat;
  ncols : nat;
  rows : list (list npfloat)
}.

(** 1-D and 2-D float arrays. *)
Inductive ndarray : Type :=
| Arr1 (v : list npfloat)
| Arr2 (m : matrix).

Module NpArr.

(** [a.shape[-1]]. *)
Definition shape_last (a : ndarray) : nat :=
  match a with
  | Arr1 v => length v
  | Arr2 m => ncols m
  end.

(** Insertion of a value in a strictly increasing list. *)
Fixpoint insert_unique (x : Z) (l : list Z) : list Z :=
  match l with
  | [] => [x]
  | y :: l' =>
      if (x <? y)%Z then x :: l
      else if (x =? y)%Z then l
      else y :: insert_unique x l'
  end.

(** [np.unique(ar)]: the sorted unique values of [ar]. *)
Definition unique (ar : list Z) : list Z := foldr insert_unique [] ar.

(** Position of the first occurrence of [x] in [ar] ([length ar] when
    there is none). *)
Fixpoint first_index (x : Z) (ar : list Z) : nat :=
  match ar with
  | [] => O
  | y :: ar' => if (x =? y)%Z then O else S (first_index x ar')
  end.

(** [np.unique(ar, return_index=True)[1]]: for each unique value, in
    sorted order, the index of its first occurrence in [ar]. *)
Definition unique_index (ar : list Z) : list nat :=
  map (fun x => first_index x ar) (unique ar).

(** The factor [1e4] of the 0.1 ms time grid. *)
Definition e4 : npfloat := Fin 10000.

(** [np.zeros((n, m))] and [np.ones((n, m))]. *)
Definition full (x : npfloat) (n m : nat) : matrix :=
  {| nrows := n; ncols := m; rows := replicate n (replicate m x) |}.
Definition zeros : nat -> nat -> matrix := full (Fin 0).
Definition ones : nat -> nat -> matrix := full (Fin 1).

(** A cell, a column and the transpose of a 2-D array. *)
Definition cell (m : matrix) (t k : nat) : option npfloat :=
  r ← rows m !! t; r !! k.
Definition col (k : nat) (m : matrix) : list npfloat :=
  map (fun r => default (Fin 0) (r !! k)) (rows m).
Definition transpose (m : matrix) : matrix :=
  {| nrows := ncols m; ncols := nrows m;
     rows := map (fun k => col k m) (seq 0 (ncols m)) |}.

(** [a.sum()] and [a.mean()] of a 1-D array. *)
Definition fsum (l : list npfloat) : npfloat := foldr fadd (Fin 0) l.
Definition mean (l : list npfloat) : npfloat :=
  fdiv (fsum l) (Fin (inject_Z (Z.of_nat (length l)))).

(** [m.sum(axis=0)] and [m.mean(axis=0)]: one value per column. *)
Definition sum_axis0 (m : matrix) : list npfloat :=
  map (fun k => fsum (col k m)) (seq 0 (ncols m)).
Definition mean_axis0 (m : matrix) : list npfloat :=
  map (fun k => fdiv (fsum (col k m)) (Fin (inject_Z (Z.of_nat (nrows m)))))
      (seq 0 (ncols m)).

(** [v.dot(m)], [a.dot(m)] and [a.dot(v)]: the inner dimensions must
    agree. *)
Definition inner (u v : list npfloat) : npfloat := fsum (zip_with fmul u v).
Definition dot_vm (v : list npfloat) (m : matrix) : result (list npfloat) :=
  if (length v =? nrows m)%nat
  then Ok (map (fun k => inner v (col k m)) (seq 0 (ncols m)))
  else Raise ValueError.
Definition dot_mm (a m : matrix) : result matrix :=
  if (ncols a =? nrows m)%nat
  then Ok {| nrows := nrows a; ncols := ncols m;
             rows := map (fun r => map (fun k => inner r (col k m))
                                       (seq 0 (ncols m))) (rows a) |}
  else Raise ValueError.
Definition dot_mv (a : matrix) (v : list npfloat) : result (list npfloat) :=
  if (ncols a =? length v)%nat
  then Ok (map (fun r => inner r v) (rows a))
  else Raise ValueError.

(** [a[mask]] for a boolean [mask]: the lengths must agree. *)
Fixpoint compress {A} (mask : list bool) (a : list A) : list A :=
  match mask, a with
  | b :: mask', x :: a' =>
      if b then x :: compress mask' a' else compress mask' a'
  | _, _ => []
  end.
Definition getmask {A} (a : list A) (mask : list bool) : result (list A) :=
  if (length mask =? length a)%nat then Ok (compress mask a)
  else Raise IndexError.

(** [a[st:end]] on the first axis, for [0 <= st <= end]. *)
Definition slice {A} (a : list A) (st end_ : nat) : list A :=
  take (end_ - st) (drop st a).

End NpArr.

Export NpArr.

(* ================================================================== *)
(** * The class [HrfRetrieval] *)
(* ================================================================== *)

Module Hrf.

Local Open Scope py_scope.

(** A row of the parsed condition file, with the fields the class reads:
    [f0] the event timing, [f1] the event number, [f4] the label. *)
Record cond_row : Type := {
  f0 : Q;
  f1 : Z;
  f4 : string
}.

(** An element of the list [self.cond]: a dict that always has the key
    ['label'] and gets ['model'], ['FIR_hrf'], ['average_hrf'] later. *)
Record cond_dict : Type := {
  label : string;
  model_ : option matrix;
  FIR_hrf : option ndarray;
  average_hrf : option ndarray
}.

(** [self.model]: a 3-D array indexed [t][k][c], with its shape. *)
Record tensor : Type := {
  shape : nat * nat * nat;
  cells : list (list (list npfloat))
}.

(** The attributes of an [HrfRetrieval] object.  [model] and [metric] do
    not exist until [getFIRmodel] and [estimateHRF] set them.  [nPreStim]
    is the integer held by the float that [np.floor] returns. *)
Record HrfRetrieval : Type := {
  tc : ndarray;
  ntps : nat;
  event_timing : list Q;
  event_number : list Z;
  nconds : nat;
  c_labels : list string;
  c_codes : list Z;
  cond : list cond_dict;
  Tstart : Q;
  Tend : Q;
  TR : Q;
  ER : Q;
  nHEst : Z;
  nPreStim : Z;
  tscale : list Q;
  model : option tensor;
  metric : option string
}.

(** What [__init__] prints: the notice that [ER] was changed, with the
    new value. *)
Inductive notice : Type :=
| ER_changed (er : Q).

(** [[f(x) for x in l]] where [f] can raise. *)
Fixpoint mapM {A B} (f : A -> result B) (l : list A) : result (list B) :=
  match l with
  | [] => Ok []
  | a :: l' => b <- f a ;; bs <- mapM f l' ;; Ok (b :: bs)
  end.

(** Lines 101-111: the effective resolution and the printed notice. *)
Definition init_ER (TR : Q) (ER : option Q) : result (Q * list notice) :=
  match ER with
  | None => Ok (TR, [])
  | Some er =>
      if Qeq_bool er TR then Ok (TR, [])
      else if truth (mod_ TR er) then
        trmult <- truediv TR er ;;
        er' <- truediv TR (inject_Z (Py.round trmult)) ;;
        Ok (er', [ER_changed er'])
      else Ok (er, [])
  end.

(** [HrfRetrieval(tsData, cond_file, TR, ER, window)], where [cond] is the
    table that [np.genfromtxt] read from [cond_file].  The result is the
    new object and what was printed. *)
Definition init (tsData : ndarray) (cond : list cond_row) (TR : Q)
    (ER : option Q) (window : list Q) : result (HrfRetrieval * list notice) :=
  let ntps := shape_last tsData in
  let event_timing := map f0 cond in
  let event_number := map f1 cond in
  let nconds := length (unique event_number) in
  let event_labels := map f4 cond in
  let indexes := unique_index event_number in
  c_labels <- mapM (getitem event_labels) indexes ;;
  let c_codes := unique event_number in
  let conds := map (fun c_name => Build_cond_dict c_name None None None) c_labels in
  w0 <- getitem window 0 ;;
  let Tstart := Py.abs w0 in
  w1 <- getitem window 1 ;;
  let Tend := Py.abs w1 in
  er_out <- init_ER TR ER ;;
  let ER := er_out.1 in
  let out := er_out.2 in
  qpos <- truediv Tstart ER ;;
  let NPosEst := Py.round qpos in
  qneg <- truediv Tend ER ;;
  let NNegEst := Py.round qneg in
  let nHEst := (NPosEst + NNegEst)%Z in
  qpre <- truediv Tstart ER ;;
  let nPreStim := floor qpre in
  tscale <- arange (inject_Z (- nPreStim + 1) * ER)
                   (inject_Z (nHEst - nPreStim + 1) * ER) ER ;;
  Ok (Build_HrfRetrieval tsData ntps event_timing event_number nconds
        c_labels c_codes conds Tstart Tend TR ER nHEst nPreStim tscale
        None None, out).

(** ** Methods: state and exceptions

    A method runs on the object and either returns or raises; in both
    cases the object keeps the assignments made so far. *)
Definition M (A : Type) : Type := HrfRetrieval -> result A * HrfRetrieval.

Definition retM {A} (a : A) : M A := fun self => (Ok a, self).
Definition bindM {A B} (m : M A) (k : A -> M B) : M B :=
  fun self =>
    match m self with
    | (Ok a, self') => k a self'
    | (Raise e, self') => (Raise e, self')
    end.
Definition lift {A} (r : result A) : M A := fun self => (r, self).
Definition gets {A} (f : HrfRetrieval -> A) : M A := fun self => (Ok (f self), self).
Definition modify (f : HrfRetrieval -> HrfRetrieval) : M unit :=
  fun self => (Ok tt, f self).

Notation "x <~ m ;; k" := (bindM m (fun x => k))
  (at level 100, m at next level, right associativity) : py_scope.
Notation "m ;;; k" := (bindM m (fun _ => k))
  (at level 100, right associativity) : py_scope.

(** [for i in l: body(i)]. *)
Fixpoint mfor {A} (l : list A) (body : A -> M unit) : M unit :=
  match l with
  | [] => retM tt
  | i :: l' => body i ;;; mfor l' body
  end.

(** The same loop over a local variable [s]. *)
Fixpoint rfor {A S} (l : list A) (body : A -> S -> result S) (s : S) : result S :=
  match l with
  | [] => Ok s
  | i :: l' => s' <- body i s ;; rfor l' body s'
  end.

Definition set_model (T : option tensor) (self : HrfRetrieval) : HrfRetrieval :=
  Build_HrfRetrieval (tc self) (ntps self) (event_timing self)
    (event_number self) (nconds self) (c_labels self) (c_codes self)
    (cond self) (Tstart self) (Tend self) (TR self) (ER self) (nHEst self)
    (nPreStim self) (tscale self) T (metric self).
Definition set_cond (cs : list cond_dict) (self : HrfRetrieval) : HrfRetrieval :=
  Build_HrfRetrieval (tc self) (ntps self) (event_timing self)
    (event_number self) (nconds self) (c_labels self) (c_codes self)
    cs (Tstart self) (Tend self) (TR self) (ER self) (nHEst self)
    (nPreStim self) (tscale self) (model self) (metric self).
Definition set_metric (m : option string) (self : HrfRetrieval) : HrfRetrieval :=
  Build_HrfRetrieval (tc self) (ntps self) (event_timing self)
    (event_number self) (nconds self) (c_labels self) (c_codes self)
    (cond self) (Tstart self) (Tend self) (TR self) (ER self) (nHEst self)
    (nPreStim self) (tscale self) (model self) m.

(** [d['model'] = v], [d['FIR_hrf'] = v], [d['average_hrf'] = v]. *)
Definition put_model (v : matrix) (d : cond_dict) : cond_dict :=
  Build_cond_dict (label d) (Some v) (FIR_hrf d) (average_hrf d).
Definition put_FIR_hrf (v : ndarray) (d : cond_dict) : cond_dict :=
  Build_cond_dict (label d) (model_ d) (Some v) (average_hrf d).
Definition put_average_hrf (v : ndarray) (d : cond_dict) : cond_dict :=
  Build_cond_dict (label d) (model_ d) (FIR_hrf d) (Some v).

(** [self.cond[c][key] = v], through one of the three functions above. *)
Definition cond_setitem (c : nat) (put : cond_dict -> cond_dict) : M unit :=
  fun self =>
    match cond self !! c with
    | Some d => (Ok tt, set_cond (<[c := put d]> (cond self)) self)
    | None => (Raise IndexError, self)
    end.

(** ** [getFIRmodel] *)

(** The cell [T[t, k, c]] (zero outside the array). *)
Definition tcell (T : tensor) (t k c : nat) : npfloat :=
  default (Fin 0) (p ← cells T !! t; q ← p !! k; q !! c).

(** The array of shape [(n0, n1, n2)] whose cell [(t, k, c)] is [f t k c]. *)
Definition tbuild (n0 n1 n2 : nat) (f : nat -> nat -> nat -> npfloat) : tensor :=
  {| shape := (n0, n1, n2);
     cells := map (fun t => map (fun k => map (fun c => f t k c) (seq 0 n2))
                                (seq 0 n1))
                  (seq 0 n0) |}.

(** [np.zeros((n0, n1, n2))]. *)
Definition tzeros (n0 n1 n2 : nat) : tensor :=
  tbuild n0 n1 n2 (fun _ _ _ => Fin 0).

(** [T[:, :, c] = m]: the plane [c] has to exist and [m] to have its
    shape; the other planes keep their cells. *)
Definition set_plane (c : nat) (m : matrix) (T : tensor) : result tensor :=
  let '(n0, n1, n2) := shape T in
  if negb (c <? n2)%nat then Raise IndexError
  else if negb ((nrows m =? n0)%nat && (ncols m =? n1)%nat) then Raise ValueError
  else Ok (tbuild n0 n1 n2
             (fun t k c' => if (c' =? c)%nat then default (Fin 0) (cell m t k)
                            else tcell T t k c')).

(** [T[:, :, c]]. *)
Definition get_plane (c : nat) (T : tensor) : result matrix :=
  let '(n0, n1, n2) := shape T in
  if (c <? n2)%nat then
    Ok {| nrows := n0; ncols := n1;
          rows := map (fun t => map (fun k => tcell T t k c) (seq 0 n1))
                      (seq 0 n0) |}
  else Raise IndexError.

(** [trE[mask, Ntp] = 1]. *)
Definition set_where (mask : list bool) (Ntp : nat) (trE : matrix) : result matrix :=
  if (length mask =? nrows trE)%nat then
    Ok {| nrows := nrows trE; ncols := ncols trE;
          rows := zip_with (fun (b : bool) r => if b then <[Ntp := Fin 1]> r else r)
                           mask (rows trE) |}
  else Raise IndexError.

(** Line 139: the onsets of the events numbered [code], snapped to the
    [ER] grid. *)
Definition rounded_onsets_of (self : HrfRetrieval) (code : Z) : result (list npfloat) :=
  sel <- getmask (event_timing self)
                 (map (fun n => (n =? code)%Z) (event_number self)) ;;
  Ok (map (fun x => fmul (Np.round (fdiv (Fin x) (Fin (ER self)))) (Fin (ER self)))
          sel).

(** Line 146: the acquisition time scale. *)
Definition trScale_of (self : HrfRetrieval) : result (list npfloat) :=
  ar <- arange 0 (inject_Z (Z.of_nat (ntps self)) * TR self) (TR self) ;;
  Ok (map (fun x => fdiv (fix_ (fmul (Fin x) e4)) e4) ar).

(** Lines 151-152: the time that lag [Ntp] of an event has to match. *)
Definition target (self : HrfRetrieval) (onset : npfloat) (Ntp : nat) : npfloat :=
  fdiv (Np.round
          (fmul (fadd onset
                      (Fin (inject_Z (Z.of_nat Ntp - nPreStim self) * ER self)))
                e4))
       e4.

(** Lines 139-152: the design matrix of condition [c]. *)
Definition build_trE (self : HrfRetrieval) (c : nat) : result matrix :=
  code <- getitem (c_codes self) c ;;
  rounded_onsets <- rounded_onsets_of self code ;;
  let trE := zeros (ntps self) (Z.to_nat (nHEst self)) in
  trScale <- trScale_of self ;;
  rfor (seq 0 (length rounded_onsets))
    (fun trial trE =>
       onset <- getitem rounded_onsets trial ;;
       rfor (seq 0 (Z.to_nat (nHEst self)))
         (fun Ntp trE =>
            set_where (map (fun s => feqb s (target self onset Ntp)) trScale)
                      Ntp trE)
         trE)
    trE.

(** The attribute [self.model], which exists once [getFIRmodel] ran. *)
Definition get_model : M tensor :=
  fun self =>
    match model self with
    | Some T => (Ok T, self)
    | None => (Raise AttributeError, self)
    end.

Definition getFIRmodel : M unit :=
  fun self =>
    if (nHEst self <? 0)%Z then (Raise ValueError, self)
    else
      let self :=
        set_model (Some (tzeros (ntps self) (Z.to_nat (nHEst self)) (nconds self)))
                  self in
      mfor (seq 0 (nconds self))
        (fun c =>
           trE <~ (fun self => (build_trE self c, self)) ;;
           cond_setitem c (put_model trE) ;;;
           T <~ get_model ;;
           T' <~ lift (set_plane c trE T) ;;
           modify (set_model (Some T')))
        self.

(** ** [estimateHRF] *)

(** [T.ravel(order='F')]: the first index runs fastest. *)
Definition ravelF (T : tensor) : list npfloat :=
  let '(n0, n1, n2) := shape T in
  c ← seq 0 n2; k ← seq 0 n1; t ← seq 0 n0; [tcell T t k c].

(** [T.reshape(T.shape[0], -1, order='F')]: cell [(t, j)] of the result is
    element [t + n0*j] of the F-order ravel; the missing dimension cannot
    be inferred when [n0] is zero. *)
Definition reshapeF (T : tensor) : result matrix :=
  let '(n0, n1, n2) := shape T in
  if (n0 =? 0)%nat then Raise ValueError
  else
    let flat := ravelF T in
    let m := (n0 * n1 * n2 / n0)%nat in
    Ok {| nrows := n0; ncols := m;
          rows := map (fun t => map (fun j => default (Fin 0) (flat !! (t + n0 * j)%nat))
                                    (seq 0 m))
                      (seq 0 n0) |}.

(** [m - v[:, np.newaxis]]: [v[i]] is subtracted from row [i]. *)
Definition sub_colvec (m : matrix) (v : list npfloat) : matrix :=
  {| nrows := nrows m; ncols := ncols m;
     rows := zip_with (fun r x => map (fun y => fsub y x) r) (rows m) v |}.

(** [o[:, :-1] = d] on [o] that has one column more than [d]. *)
Definition set_but_last (o d : matrix) : matrix :=
  {| nrows := nrows o; ncols := ncols o;
     rows := zip_with (fun orow drow => drow ++ drop (length drow) orow)
                      (rows o) (rows d) |}.

(** Lines 178-188: the demeaned design with its column of ones. *)
Definition fir_design (T : tensor) : result matrix :=
  model <- reshapeF T ;;
  let mean := mean_axis0 model in
  let demean_model := sub_colvec (transpose model) mean in
  let demean_model := transpose demean_model in
  let demean_model_plus_intercept :=
    ones (nrows demean_model) (ncols demean_model + 1) in
  Ok (set_but_last demean_model_plus_intercept demean_model).

(** [a.T] and [p.dot(a)] for a 1-D or 2-D [a]. *)
Definition T_ (a : ndarray) : ndarray :=
  match a with
  | Arr1 v => Arr1 v
  | Arr2 m => Arr2 (transpose m)
  end.
Definition dot_nd (p : matrix) (a : ndarray) : result ndarray :=
  match a with
  | Arr1 v => v' <- dot_mv p v ;; Ok (Arr1 v')
  | Arr2 m => m' <- dot_mm p m ;; Ok (Arr2 m')
  end.

(** [b[st:end]] on the first axis. *)
Definition slice_nd (b : ndarray) (st end_ : nat) : ndarray :=
  match b with
  | Arr1 v => Arr1 (slice v st end_)
  | Arr2 m =>
      let r := slice (rows m) st end_ in
      Arr2 {| nrows := length r; ncols := ncols m; rows := r |}
  end.

(** Lines 203-209 for one condition: the baseline-corrected average. *)
Definition average_of (tc : ndarray) (ind : list bool) (model : matrix) : result ndarray :=
  let colsum := sum_axis0 model in
  match tc with
  | Arr1 v =>
      num <- dot_vm v model ;;
      let mean_hrf := zip_with fdiv num colsum in
      pre <- getmask mean_hrf ind ;;
      let mean_prestim := mean pre in
      Ok (Arr1 (map (fun x => fsub x mean_prestim) mean_hrf))
  | Arr2 a =>
      num <- dot_mm a model ;;
      let mean_hrf := map (fun r => zip_with fdiv r colsum) (rows num) in
      pre <- (if (length ind =? ncols num)%nat
              then Ok (map (compress ind) mean_hrf) else Raise IndexError) ;;
      let mean_prestim := map mean pre in
      Ok (Arr2 {| nrows := nrows num; ncols := ncols num;
                  rows := zip_with (fun r b => map (fun x => fsub x b) r)
                                   mean_hrf mean_prestim |})
  end.

Section Estimate.

(** [np.linalg.pinv]: the Moore-Penrose pseudo-inverse, computed by the
    library; it gives no result, and raises [LinAlgError], when its SVD
    does not converge. *)
Variable pinv : matrix -> option matrix.

Definition call_pinv (a : matrix) : result matrix :=
  match pinv a with
  | Some p => Ok p
  | None => Raise LinAlgError
  end.

Definition estimateHRF (metric : string) : M unit :=
  modify (set_metric (Some metric)) ;;;
  if String.eqb metric "FIR" then
    T <~ get_model ;;
    design <~ lift (fir_design T) ;;
    p <~ lift (call_pinv design) ;;
    tc <~ gets tc ;;
    b_est <~ lift (dot_nd p (T_ tc)) ;;
    nconds <~ gets nconds ;;
    nHEst <~ gets nHEst ;;
    mfor (seq 0 nconds) (fun c =>
      let range_st := (Z.of_nat c * nHEst)%Z in
      let range_end := (range_st + nHEst)%Z in
      cond_setitem c
        (put_FIR_hrf (T_ (slice_nd b_est (Z.to_nat range_st)
                                         (Z.to_nat range_end)))))
  else if String.eqb metric "average" then
    tscale <~ gets tscale ;;
    let ind := map (fun x => Py.lt x 0) tscale in
    nconds <~ gets nconds ;;
    mfor (seq 0 nconds) (fun c =>
      T <~ get_model ;;
      model <~ lift (get_plane c T) ;;
      tc <~ gets tc ;;
      avg <~ lift (average_of tc ind model) ;;
      cond_setitem c (put_average_hrf avg))
  else lift (Raise (UserDefinedException "Metric can only be FIR/average!")).

End Estimate.

End Hrf.

Export Hrf.


(* ================================================================== *)
(** * The specification's readings *)
(* ================================================================== *)

Module Spec.

(** The distinct values of [l] in the order in which they first appear. *)
Fixpoint first_appearance (l : list Z) : list Z :=
  match l with
  | [] => []
  | x :: l' => x :: filter (fun y => y <> x) (first_appearance l')
  end.

(** The label of the first row of the table whose event number is
    [code]. *)
Fixpoint first_label (cond : list cond_row) (code : Z) : option string :=
  match cond with
  | [] => None
  | r :: cond' => if (f1 r =? code)%Z then Some (f4 r) else first_label cond' code
  end.

(** "The condition records are in the first-appearance order of the
    condition codes, each with the label of its first event". *)
Definition first_appearance_order (cond : list cond_row) (self : HrfRetrieval) : Prop :=
  map (fun d => Some (label d)) (Hrf.cond self) =
  map (first_label cond) (first_appearance (map f1 cond)).


(** "trScale[t] = fix(t * TR * 1e4)/1e4". *)
Definition trScale (TR : Q) (t : nat) : npfloat :=
  fdiv (fix_ (fmul (Fin (inject_Z (Z.of_nat t) * TR)) e4)) e4.

(** "rounded_onset = round(onset/ER) * ER". *)
Definition rounded_onset (ER onset : Q) : npfloat :=
  fmul (Np.round (fdiv (Fin onset) (Fin ER))) (Fin ER).

(** "target = round((rounded_onset + (k - nPreStim) * ER) * 1e4)/1e4". *)
Definition target (ER : Q) (nPreStim : Z) (onset : Q) (k : nat) : npfloat :=
  fdiv (Np.round
          (fmul (fadd (rounded_onset ER onset)
                      (Fin (inject_Z (Z.of_nat k - nPreStim) * ER)))
                e4))
       e4.

(** Row [i] of the event table is an event of condition [code] with onset
    [onset]. *)
Definition event_of (self : HrfRetrieval) (code : Z) (i : nat) (onset : Q) : Prop :=
  event_number self !! i = Some code /\ event_timing self !! i = Some onset.


(** "No acquisition-grid collision": no two acquisition samples have the
    same time on the 1e-4 s grid. *)
Definition no_collision (TR : Q) (ntps : nat) : Prop :=
  forall t t' : nat, (t < ntps)%nat -> (t' < ntps)%nat ->
    feqb (trScale TR t) (trScale TR t') = true -> t = t'.

(** Row [r] of a coefficient array: one value per voxel. *)
Definition row (b : ndarray) (r : nat) : option (list npfloat) :=
  match b with
  | Arr1 v => (fun x => [x]) <$> v !! r
  | Arr2 m => rows m !! r
  end.

(** Lag [k] of a response estimate: one value per voxel. *)
Definition lag (est : ndarray) (k : nat) : option (list npfloat) :=
  match est with
  | Arr1 v => (fun x => [x]) <$> v !! k
  | Arr2 m => if (k <? ncols m)%nat then Some (col k m) else None
  end.

(** "mean_hrf = timecourse . model / column_sums(model)", at lag [k] for the
    timecourse [v] of one voxel. *)
Definition mean_hrf (v : list npfloat) (m : matrix) (k : nat) : npfloat :=
  fdiv (inner v (col k m)) (fsum (col k m)).

(** "The lags with tscale < 0". *)
Definition prestim (tscale : list Q) : list nat :=
  List.filter (fun j => from_option (fun x => Py.lt x 0) false (tscale !! j))
              (seq 0 (length tscale)).

(** "The mean of mean_hrf over all lags with tscale < 0". *)
Definition baseline (tscale : list Q) (v : list npfloat) (m : matrix) : npfloat :=
  mean (map (mean_hrf v m) (prestim tscale)).

End Spec.

(* ================================================================== *)
(** * Closed forms and invariants used in the proofs *)
(* ================================================================== *)

(** Strictly increasing, read by positions. *)
Definition ascending (l : list Z) : Prop :=
  forall i j a b, l !! i = Some a -> l !! j = Some b -> (i < j)%nat -> (a < b)%Z.

(** The matrix with a row per acquisition time [s] of [trScale] and [n]
    columns, holding 1 where [hit s k] and 0 elsewhere. *)
Definition hit_matrix (trScale : list npfloat) (n : nat)
    (hit : npfloat -> nat -> bool) : matrix :=
  {| nrows := length trScale; ncols := n;
     rows := map (fun s => map (fun k => if hit s k then Fin 1 else Fin 0)
                               (seq 0 n))
                 trScale |}.

(** The closed form of the design matrix of the condition [code]. *)
Definition design_matrix (self : HrfRetrieval) (code : Z) : matrix :=
  hit_matrix (map (Spec.trScale (TR self)) (seq 0 (ntps self)))
    (Z.to_nat (nHEst self))
    (fun s k =>
       existsb (fun o => feqb s (target self o k))
         (map (Spec.rounded_onset (ER self))
              (compress (map (fun n => (n =? code)%Z) (event_number self))
                        (event_timing self)))).

(** What [__init__] guarantees on the lists that [getFIRmodel] indexes. *)
Definition wf_obj (self : HrfRetrieval) : Prop :=
  length (c_codes self) = nconds self /\
  length (cond self) = nconds self /\
  length (event_number self) = length (event_timing self).

(** The design matrix of the [c]-th condition. *)
Definition design_c (self : HrfRetrieval) (c : nat) : matrix :=
  design_matrix self (default 0%Z (c_codes self !! c)).

(** The object after the conditions below [a] have been handled. *)
Definition built_upto (self : HrfRetrieval) (a : nat) : HrfRetrieval :=
  set_model
    (Some (tbuild (ntps self) (Z.to_nat (nHEst self)) (nconds self)
             (fun t k c => if (c <? a)%nat
                           then default (Fin 0) (cell (design_c self c) t k)
                           else Fin 0)))
    (set_cond (imap (fun c d => if (c <? a)%nat then put_model (design_c self c) d else d)
                    (cond self))
              self).


(** The design matrices that an object holds: the 3-D array and the
    ['model'] entry of every condition. *)
Definition design_part (self : HrfRetrieval) : option tensor * list (option matrix) :=
  (model self, map model_ (cond self)).

(** A result that is not the exception of [estimateHRF]. *)
Definition no_ude {A} (r : result A) : Prop :=
  forall str, r <> Raise (UserDefinedException str).

(** A computation that leaves the design matrices alone and does not raise
    [UserDefinedException]. *)
Definition quiet {A} (m : M A) : Prop :=
  forall s, design_part (m s).2 = design_part s /\ no_ude (m s).1.

(** The 2-D array of shape [(n, m)] whose cell [(t, j)] is [g t j]. *)
Definition mbuild (n m : nat) (g : nat -> nat -> npfloat) : matrix :=
  {| nrows := n; ncols := m;
     rows := map (fun t => map (fun j => g t j) (seq 0 m)) (seq 0 n) |}.

(** The mean over time of column [j] of the concatenated model. *)
Definition column_mean (T : tensor) (n0 n1 : nat) (j : nat) : npfloat :=
  fdiv (fsum (map (fun t => tcell T t (j mod n1) (j / n1)) (seq 0 n0)))
       (Fin (inject_Z (Z.of_nat n0))).

(** The design matrices are built: [self.model] is the array [T] of shape
    (ntps, nHEst, nconds) and every condition holds its plane of [T] under
    ['model']. *)
Definition model_built (self : HrfRetrieval) (T : tensor) : Prop :=
  model self = Some T /\
  shape T = (ntps self, Z.to_nat (nHEst self), nconds self) /\
  (0 <= nHEst self)%Z /\
  length (cond self) = nconds self /\
  forall c d, cond self !! c = Some d ->
    exists m, model_ d = Some m /\ get_plane c T = Ok m.

(** Every row of a 2-D array has as many cells as the array has columns. *)
Definition rows_full (a : ndarray) : Prop :=
  match a with
  | Arr1 _ => True
  | Arr2 m => Forall (fun r => length r = ncols m) (rows m)
  end.

(** The estimate that the averaging path stores for the design matrix
    [m]. *)
Definition average_estimate (tc : ndarray) (tscale : list Q) (m : matrix) : ndarray :=
  match tc with
  | Arr1 v =>
      Arr1 (map (fun k => fsub (Spec.mean_hrf v m k) (Spec.baseline tscale v m))
                (seq 0 (ncols m)))
  | Arr2 a =>
      Arr2 {| nrows := nrows a; ncols := ncols m;
              rows := map (fun row =>
                             map (fun k => fsub (Spec.mean_hrf row m k)
                                                (Spec.baseline tscale row m))
                                 (seq 0 (ncols m)))
                          (rows a) |}
  end.

(** A value that is zero or not-a-number. *)
Definition zero_or_nan (x : npfloat) : Prop :=
  x = NaN \/ exists q, x = Fin q /\ q == 0.

(** ** Exact sums, and what a call leaves alone *)

(** The sum and the mean of a list of rationals. *)
Definition Qsum (l : list Q) : Q := foldr Qplus 0 l.
Definition Qmean (l : list Q) : Q := Qsum l / inject_Z (Z.of_nat (length l)).

(** The samples of [qs] at the acquisition times where the column [b] of a
    design matrix holds 1. *)
Definition selected (qs : list Q) (b : list npfloat) : list Q :=
  compress (map (fun x => feqb x (Fin 1)) b) qs.

(** A cell that is 0 or 1. *)
Definition binary (x : npfloat) : Prop := x = Fin 0 \/ x = Fin 1.

(** The rational held by a finite cell. *)
Definition qval (x : npfloat) : Q :=
  match x with Fin q => q | _ => 0 end.

(** A computation that changes nothing of an object but its condition
    records, and nothing of a condition record that [f] reads. *)
Definition keeps {X A} (f : cond_dict -> X) (m : M A) : Prop :=
  forall s, set_cond [] (m s).2 = set_cond [] s /\
            map f (cond (m s).2) = map f (cond s).

(** What the FIR path and the averaging path leave alone in a condition
    record. *)
Definition but_FIR_hrf (d : cond_dict) : string * option matrix * option ndarray :=
  (label d, model_ d, average_hrf d).
Definition but_average_hrf (d : cond_dict) : string * option matrix * option ndarray :=
  (label d, model_ d, FIR_hrf d).

(* ================================================================== *)
(** * A small run *)
(* ================================================================== *)

Module Example.

(** Eight samples of one voxel, 0, 1, ..., 7. *)
Definition tsData : ndarray :=
  Arr1 [Fin 0; Fin 1; Fin 2; Fin 3; Fin 4; Fin 5; Fin 6; Fin 7].

(** Two events: condition 1 (label A) at 4 s and condition 7 (label B)
    at 2 s. *)
Definition table : list cond_row :=
  [Build_cond_row 4 1 "A"; Build_cond_row 2 7 "B"].

Definition empty : HrfRetrieval :=
  Build_HrfRetrieval (Arr1 []) 0 [] [] 0 [] [] [] 0 0 0 0 0 0 [] None None.

(** [HrfRetrieval(tsData, table, TR=2, window=[-4, 2])]. *)
Definition obj0 : HrfRetrieval :=
  Eval vm_compute in
    match init tsData table 2 None [-4; 2] with
    | Ok (self, _) => self
    | Raise _ => empty
    end.

(** The same object after [getFIRmodel()], and its 3-D array. *)
Definition obj1 : HrfRetrieval :=
  Eval vm_compute in (getFIRmodel obj0).2.

Definition T1 : tensor :=
  Eval vm_compute in default (tzeros 0 0 0) (model obj1).

(** A second run: two samples 3, 1 of one voxel, one event of condition 1
    at 0 s, [TR = 2] and the window [0, 2], so that there is one lag. *)
Definition tsData2 : ndarray := Arr1 [Fin 3; Fin 1].

Definition table2 : list cond_row := [Build_cond_row 0 1 "A"].

Definition obj2 : HrfRetrieval :=
  Eval vm_compute in
    match init tsData2 table2 2 None [0; 2] with
    | Ok (self, _) => self
    | Raise _ => empty
    end.

Definition obj3 : HrfRetrieval :=
  Eval vm_compute in (getFIRmodel obj2).2.

Definition T3 : tensor :=
  Eval vm_compute in default (tzeros 0 0 0) (model obj3).

(** The design of the second run is [[1/2, 1], [-1/2, 1]]; it is
    invertible and [P3] is its inverse, hence its pseudo-inverse. *)
Definition P3 : matrix :=
  {| nrows := 2; ncols := 2;
     rows := [[Fin 1; Fin (-1)]; [Fin (1 # 2); Fin (1 # 2)]] |}.

Definition pinv3 (a : matrix) : option matrix := Some P3.

(** Cell by cell comparison of two 2-D arrays. *)
Definition mat_eqb (a b : matrix) : bool :=
  forallb (fun rr => forallb (fun xy => feqb xy.1 xy.2) (zip rr.1 rr.2))
          (zip (rows a) (rows b)).

End Example.

(* ================================================================== *)
(** * Properties of the scalar functions *)
(* ================================================================== *)

Section Scalars.

Lemma Qeq_bool_true_iff (x y : Q) : Qeq_bool x y = true <-> x == y.
Proof. apply Qeq_bool_iff. Qed.

Lemma Qeq_bool_false_iff (x y : Q) : Qeq_bool x y = false <-> ~ x == y.
Proof.
  split.
  - intros H E. apply Qeq_bool_iff in E. congruence.
  - intros H. destruct (Qeq_bool x y) eqn:E; [|reflexivity].
    apply Qeq_bool_iff in E. contradiction.
Qed.

Lemma Qle_bool_false_iff (x y : Q) : Qle_bool x y = false <-> y < x.
Proof.
  split.
  - intros H. apply Qnot_le_lt. intros E. apply Qle_bool_iff in E. congruence.
  - intros H. destruct (Qle_bool x y) eqn:E; [|reflexivity].
    apply Qle_bool_iff in E. lra.
Qed.

Lemma lt_true_iff (x y : Q) : Py.lt x y = true <-> x < y.
Proof.
  unfold Py.lt. rewrite negb_true_iff. apply Qle_bool_false_iff.
Qed.

(** [round] is within a half of its argument. *)
Lemma round_bounds (x : Q) :
  inject_Z (Py.round x) - (1 # 2) <= x /\ x <= inject_Z (Py.round x) + (1 # 2).
Proof.
  unfold Py.round.
  pose proof (Qfloor_le x) as Hlo. pose proof (Qlt_floor x) as Hhi.
  rewrite inject_Z_plus in Hhi. change (inject_Z 1) with 1 in Hhi.
  destruct (Qcompare (x - inject_Z (Qfloor x)) (1 # 2)) eqn:E.
  - apply Qeq_alt in E.
    destruct (Z.even (Qfloor x)); [|rewrite inject_Z_plus; change (inject_Z 1) with 1]; lra.
  - apply Qlt_alt in E. lra.
  - apply Qgt_alt in E. rewrite inject_Z_plus. change (inject_Z 1) with 1. lra.
Qed.

Lemma round_comp (x y : Q) : x == y -> Py.round x = Py.round y.
Proof.
  intros E. unfold Py.round. rewrite (Qfloor_comp _ _ E).
  assert (x - inject_Z (Qfloor y) == y - inject_Z (Qfloor y)) as E' by (rewrite E; reflexivity).
  rewrite (Qcompare_comp _ _ E' (1 # 2) (1 # 2) (Qeq_refl _)). reflexivity.
Qed.

Lemma round_nonneg (x : Q) : 0 <= x -> (0 <= Py.round x)%Z.
Proof.
  intros Hx. destruct (round_bounds x) as [Hlo _].
  destruct (Z_lt_le_dec (Py.round x) 0) as [Hneg|]; [|assumption].
  exfalso.
  assert (inject_Z (Py.round x) <= inject_Z (-1)) as H.
  { rewrite <- Zle_Qle. lia. }
  change (inject_Z (-1)) with (-1) in H.
  (* only the half-way case x = -1/2 is left: it rounds to 0 *)
  unfold Py.round in *.
  pose proof (Qfloor_le x) as Hfl. pose proof (Qlt_floor x) as Hfh.
  assert (0 <= Qfloor x)%Z as Hf0.
  { change 0%Z with (Qfloor 0). apply Qfloor_resp_le. assumption. }
  destruct (Qcompare (x - inject_Z (Qfloor x)) (1 # 2));
    try destruct (Z.even (Qfloor x)); lia.
Qed.

Lemma round_pos (x : Q) : (1 # 2) < x -> (1 <= Py.round x)%Z.
Proof.
  intros Hx. destruct (round_bounds x) as [_ Hhi].
  assert (0 < inject_Z (Py.round x)) as H by lra.
  change 0 with (inject_Z 0) in H. rewrite <- Zlt_Qlt in H. lia.
Qed.

Lemma truediv_ok (x y : Q) : ~ y == 0 -> truediv x y = Ok (x / y).
Proof.
  intros H. unfold truediv. apply Qeq_bool_false_iff in H. rewrite H. reflexivity.
Qed.

Lemma truediv_inv (x y q : Q) : truediv x y = Ok q -> ~ y == 0 /\ q = x / y.
Proof.
  unfold truediv. destruct (Qeq_bool y 0) eqn:E; [discriminate|].
  intros [= <-]. apply Qeq_bool_false_iff in E. auto.
Qed.

(** [np.arange] when the span is a whole number [n] of steps: [n] values,
    the [i]-th being [start + i*step]. *)
Lemma arange_whole (start stop step : Q) (n : Z) :
  ~ step == 0 -> (stop - start) / step == inject_Z n ->
  exists l, arange start stop step = Ok l /\
    length l = Z.to_nat n /\
    forall i : nat, (i < Z.to_nat n)%nat ->
      l !! i = Some (start + inject_Z (Z.of_nat i) * step).
Proof.
  intros Hstep Hspan. unfold arange.
  apply Qeq_bool_false_iff in Hstep. rewrite Hstep.
  rewrite (Qceiling_comp _ _ Hspan), Qceiling_Z.
  eexists. split; [reflexivity|]. split.
  - rewrite length_map, length_seq. reflexivity.
  - intros i Hi. rewrite list_lookup_fmap, lookup_seq_lt by assumption.
    reflexivity.
Qed.

End Scalars.

(* ================================================================== *)
(** * [np.unique] *)
(* ================================================================== *)

Section Unique.

Implicit Types (x y : Z) (ar l : list Z).

Lemma ascending_cons x l :
  ascending (x :: l) <-> (forall y, y ∈ l -> (x < y)%Z) /\ ascending l.
Proof.
  split.
  - intros H. split.
    + intros y Hy. apply list_elem_of_lookup in Hy as [j Hj].
      apply (H 0%nat (S j) x y); [reflexivity|exact Hj|lia].
    + intros i j a b Hi Hj Hij. apply (H (S i) (S j) a b); auto with lia.
  - intros [Hx Hl] i j a b Hi Hj Hij.
    destruct i as [|i]; destruct j as [|j]; simpl in *; try lia.
    + injection Hi as <-. apply Hx. apply list_elem_of_lookup. eauto.
    + apply (Hl i j); auto with lia.
Qed.

Lemma elem_of_insert_unique x y l :
  y ∈ insert_unique x l <-> y = x \/ y ∈ l.
Proof.
  induction l as [|z l IH]; simpl.
  - rewrite list_elem_of_singleton, elem_of_nil. tauto.
  - destruct (Z.ltb_spec x z); [rewrite (elem_of_cons (z :: l)); tauto|].
    destruct (Z.eqb_spec x z) as [->|Hne].
    + rewrite elem_of_cons. tauto.
    + rewrite !elem_of_cons, IH. tauto.
Qed.

Lemma ascending_insert_unique x l :
  ascending l -> ascending (insert_unique x l).
Proof.
  induction l as [|z l IH]; simpl; intros Hl.
  - apply ascending_cons. split; [|exact Hl]. intros y Hy. inversion Hy.
  - apply ascending_cons in Hl as Hzl. destruct Hzl as [Hz Hl'].
    destruct (Z.ltb_spec x z).
    + apply ascending_cons. split; [|exact Hl].
      intros y [->|Hy]%elem_of_cons; [assumption|]. specialize (Hz y Hy). lia.
    + destruct (Z.eqb_spec x z); [exact Hl|].
      apply ascending_cons. split; [|auto].
      intros y [->|Hy]%elem_of_insert_unique; [lia|auto].
Qed.

Lemma elem_of_unique x ar : x ∈ unique ar <-> x ∈ ar.
Proof.
  unfold unique. induction ar as [|y ar IH]; simpl; [reflexivity|].
  rewrite elem_of_insert_unique, IH, elem_of_cons. reflexivity.
Qed.

Lemma ascending_unique ar : ascending (unique ar).
Proof.
  unfold unique. induction ar as [|y ar IH]; simpl.
  - intros i j a b Hi. destruct i; discriminate.
  - apply ascending_insert_unique, IH.
Qed.

(** [first_index] finds the first position that holds [x]. *)
Lemma first_index_spec x ar :
  x ∈ ar ->
  ar !! first_index x ar = Some x /\
  forall j, (j < first_index x ar)%nat -> ar !! j <> Some x.
Proof.
  induction ar as [|y ar IH]; simpl; intros Hx; [inversion Hx|].
  destruct (Z.eqb_spec x y) as [->|Hne].
  - split; [reflexivity|]. intros j Hj. lia.
  - apply elem_of_cons in Hx as [?|Hx]; [contradiction|].
    destruct (IH Hx) as [Hi Hfirst]. split; [exact Hi|].
    intros [|j] Hj; simpl; [congruence|]. apply Hfirst. lia.
Qed.

Lemma mapM_ext {A B} (f : A -> result B) (g : A -> B) (l : list A) :
  (forall a, a ∈ l -> f a = Ok (g a)) -> mapM f l = Ok (map g l).
Proof.
  induction l as [|a l IH]; simpl; intros H; [reflexivity|].
  rewrite (H a) by (apply elem_of_cons; auto). simpl.
  rewrite IH by (intros b Hb; apply H, elem_of_cons; auto). reflexivity.
Qed.

(** The list comprehension of line 86 never raises: every index that
    [np.unique] returns is a row of the table. *)
Lemma c_labels_eq (cond : list cond_row) :
  mapM (getitem (map f4 cond)) (unique_index (map f1 cond)) =
  Ok (map (fun code => default ""%string
                         (map f4 cond !! first_index code (map f1 cond)))
          (unique (map f1 cond))).
Proof.
  unfold unique_index. rewrite (mapM_ext _ (fun i => default ""%string (map f4 cond !! i))).
  - rewrite <- list_fmap_compose. reflexivity.
  - intros i Hi. apply list_elem_of_fmap in Hi as [code [-> Hcode]].
    rewrite elem_of_unique in Hcode. apply first_index_spec in Hcode as [Hi _].
    rewrite list_lookup_fmap in Hi. unfold getitem. rewrite list_lookup_fmap.
    destruct (cond !! first_index code (map f1 cond)); [reflexivity|discriminate].
Qed.

End Unique.

(* ================================================================== *)
(** * The constructor *)
(* ================================================================== *)

Section Init.

Variables (tsData : ndarray) (cond : list cond_row) (TR : Q) (ER : option Q).

(** What [__init__] returns once the resolution step gave a non-zero
    [er]: every later step succeeds. *)
Lemma init_eq (w0 w1 er : Q) (out : list notice) :
  init_ER TR ER = Ok (er, out) -> ~ er == 0 ->
  let nHEst := (Py.round (Qabs w0 / er) + Py.round (Qabs w1 / er))%Z in
  let nPreStim := Qfloor (Qabs w0 / er) in
  let c_labels :=
    map (fun code => default ""%string
                       (map f4 cond !! first_index code (map f1 cond)))
        (unique (map f1 cond)) in
  exists tscale,
    init tsData cond TR ER [w0; w1] =
      Ok (Build_HrfRetrieval tsData (shape_last tsData) (map f0 cond)
            (map f1 cond) (length (unique (map f1 cond))) c_labels
            (unique (map f1 cond))
            (map (fun c_name => Build_cond_dict c_name None None None) c_labels)
            (Qabs w0) (Qabs w1) TR er nHEst nPreStim tscale None None, out) /\
    length tscale = Z.to_nat nHEst /\
    forall i : nat, (i < Z.to_nat nHEst)%nat ->
      tscale !! i =
      Some (inject_Z (- nPreStim + 1) * er + inject_Z (Z.of_nat i) * er).
Proof.
  intros Her Hnz nHEst nPreStim c_labels.
  destruct (arange_whole (inject_Z (- nPreStim + 1) * er)
              (inject_Z (nHEst - nPreStim + 1) * er) er nHEst Hnz)
    as (tscale & Har & Hlen & Hnth).
  { unfold Z.sub. rewrite !inject_Z_plus, !inject_Z_opp. field. exact Hnz. }
  exists tscale. split; [|split; assumption].
  unfold init. rewrite c_labels_eq. cbn [rbind getitem lookup list_lookup].
  rewrite Her. cbn [rbind fst snd]. unfold Py.abs.
  rewrite !truediv_ok by assumption. cbn [rbind].
  fold nHEst nPreStim. unfold floor. fold nPreStim. rewrite Har. reflexivity.
Qed.

(** Conversely, a successful construction went through the resolution
    step, with a non-zero result, and a window of two bounds or more. *)
Lemma init_inv (window : list Q) (self : HrfRetrieval) (out : list notice) :
  init tsData cond TR ER window = Ok (self, out) ->
  exists w0 w1 rest er,
    window = w0 :: w1 :: rest /\ init_ER TR ER = Ok (er, out) /\ ~ er == 0 /\
    init tsData cond TR ER [w0; w1] = Ok (self, out).
Proof.
  intros H. destruct window as [|w0 [|w1 rest]].
  - unfold init in H. rewrite c_labels_eq in H. discriminate.
  - unfold init in H. rewrite c_labels_eq in H. discriminate.
  - exists w0, w1, rest.
    assert (init tsData cond TR ER [w0; w1] = Ok (self, out)) as H2 by exact H.
    unfold init in H. rewrite c_labels_eq in H.
    cbn [rbind getitem lookup list_lookup] in H.
    destruct (init_ER TR ER) as [[er out']|] eqn:Her; [|discriminate].
    cbn [rbind fst snd] in H.
    destruct (truediv (Py.abs w0) er) eqn:Hd; [|discriminate].
    apply truediv_inv in Hd as [Hnz _].
    exists er. repeat split; auto.
    destruct (init_eq w0 w1 er out' Her Hnz) as (ts & Heq & _).
    rewrite Heq in H2. injection H2 as _ ->. reflexivity.
Qed.

(** A positive [TR] and an absent or positive [ER] give a positive final
    [ER]. *)
Lemma init_ER_pos (er : Q) (out : list notice) :
  0 < TR -> (forall e, ER = Some e -> 0 < e) ->
  init_ER TR ER = Ok (er, out) -> 0 < er.
Proof.
  intros HTR HER. unfold init_ER. destruct ER as [e|]; [|intros [= <- _]; exact HTR].
  specialize (HER e eq_refl).
  destruct (Qeq_bool e TR); [intros [= <- _]; exact HTR|].
  destruct (truth (mod_ TR e)); [|intros [= <- _]; exact HER].
  rewrite truediv_ok by lra. cbn [rbind].
  destruct (truediv TR (inject_Z (Py.round (TR / e)))) as [q|] eqn:Hd; [|discriminate].
  apply truediv_inv in Hd as [Hnz ->]. cbn [rbind]. intros [= <- _].
  assert (0 < TR / e) as Hpos by (apply Qlt_shift_div_l; lra).
  pose proof (round_nonneg (TR / e) (Qlt_le_weak _ _ Hpos)) as Hr.
  assert (0 < inject_Z (Py.round (TR / e))) as Hr'.
  { destruct (Z.eq_dec (Py.round (TR / e)) 0%Z) as [E|E].
    - rewrite E in Hnz. exfalso. apply Hnz. reflexivity.
    - change 0 with (inject_Z 0). rewrite <- Zlt_Qlt. lia. }
  apply Qlt_shift_div_l; lra.
Qed.

(** The resolution step when [ER] differs from [TR], does not divide it
    and [TR/ER] does not round to zero: the new [ER] is [TR] over a whole
    number, and the notice is printed. *)
Lemma init_ER_adjusted (e : Q) :
  ER = Some e -> ~ e == TR -> truth (mod_ TR e) = true -> ~ TR == 0 ->
  Py.round (TR / e) <> 0%Z ->
  let er := TR / inject_Z (Py.round (TR / e)) in
  init_ER TR ER = Ok (er, [ER_changed er]) /\
  TR / er == inject_Z (Py.round (TR / e)).
Proof.
  intros -> Hne Hmod HTR Hr er. unfold init_ER.
  apply Qeq_bool_false_iff in Hne. rewrite Hne, Hmod.
  assert (~ inject_Z (Py.round (TR / e)) == 0) as Hr'.
  { change 0 with (inject_Z 0). rewrite inject_Z_injective. exact Hr. }
  assert (~ e == 0) as He.
  { intros E. apply Hr. rewrite (round_comp (TR / e) 0); [reflexivity|].
    rewrite E. unfold Qdiv, Qinv; simpl; ring. }
  rewrite truediv_ok by exact He. cbn [rbind].
  rewrite truediv_ok by exact Hr'. cbn [rbind]. split; [reflexivity|].
  unfold er. field. split; assumption.
Qed.

End Init.

(** C4, at TR = 1 and ER = 3: [TR mod ER] is 1, [round(TR/ER)] is 0 and the
    division [TR/round(TR/ER)] raises [ZeroDivisionError], so that the
    construction fails instead of correcting [ER] with a notice. *)
Theorem C4_ER_above_twice_TR_raises (tsData : ndarray) (cond : list cond_row) :
  truth (mod_ 1 3) = true /\ Py.round (1 / 3) = 0%Z /\
  init_ER 1 (Some 3) = Raise ZeroDivisionError /\
  init tsData cond 1 (Some 3) [-4; 24] = Raise ZeroDivisionError.
Proof.
  repeat split. unfold init. rewrite c_labels_eq. reflexivity.
Qed.








(* ================================================================== *)
(** * The condition records *)
(* ================================================================== *)

Section Conditions.

Lemma first_label_first_index (cond : list cond_row) (code : Z) :
  code ∈ map f1 cond ->
  Spec.first_label cond code =
  Some (default ""%string (map f4 cond !! first_index code (map f1 cond))).
Proof.
  induction cond as [|r cond IH]; cbn; intros Hin; [inversion Hin|].
  rewrite (Z.eqb_sym (f1 r)). destruct (Z.eqb_spec code (f1 r)) as [E|E]; [reflexivity|].
  apply elem_of_cons in Hin as [?|Hin]; [congruence|]. cbn. apply IH, Hin.
Qed.

End Conditions.

(** C7 as stated fails on the table with rows (0, 2, B) and (1, 1, A): the
    records come out labelled A, B, while the codes first appear in the
    order 2, 1, that is B, A. *)
Lemma C7_counterexample :
  let cond := [Build_cond_row 0 2 "B"; Build_cond_row 1 1 "A"] in
  exists self,
    init (Arr1 []) cond 2 None [-4; 24] = Ok (self, []) /\
    map label (Hrf.cond self) = ["A"%string; "B"%string] /\
    map (Spec.first_label cond) (Spec.first_appearance (map f1 cond)) =
      [Some "B"%string; Some "A"%string] /\
    ~ Spec.first_appearance_order cond self.
Proof.
  eexists. split; [reflexivity|]. split; [reflexivity|]. split; [reflexivity|].
  intros H. discriminate H.
Qed.

(** C7, amended: the condition records are in ascending order of the
    condition codes ([c_codes] is strictly increasing and holds exactly the
    codes of the table, one record per code), and the label of each record
    is that of the first row of the table that has its code. *)
Theorem C7_conditions_sorted_by_code (tsData : ndarray) (cond : list cond_row)
    (TR : Q) (ER : option Q) (window : list Q) (self : HrfRetrieval)
    (out : list notice) :
  init tsData cond TR ER window = Ok (self, out) ->
  ascending (c_codes self) /\
  (forall code, code ∈ c_codes self <-> code ∈ map f1 cond) /\
  nconds self = length (c_codes self) /\
  map (fun d => Some (label d)) (Hrf.cond self) =
    map (Spec.first_label cond) (c_codes self).
Proof.
  intros H. apply init_inv in H as (w0 & w1 & rest & er & _ & Her & Hnz & H).
  destruct (init_eq tsData cond TR ER w0 w1 er out Her Hnz) as (ts & Heq & _).
  rewrite Heq in H. injection H as <-.
  cbn [c_codes nconds Hrf.cond]. split; [apply ascending_unique|].
  split; [intros code; apply elem_of_unique|]. split; [reflexivity|].
  rewrite <- !list_fmap_compose. apply list_fmap_ext.
  intros i code Hi. cbn. symmetry. apply first_label_first_index.
  apply elem_of_unique. apply list_elem_of_lookup. eauto.
Qed.

Lemma C7_conditions_sorted_by_code_witness :
  let cond := [Build_cond_row 0 2 "B"; Build_cond_row 1 1 "A"] in
  exists self,
    init (Arr1 []) cond 2 None [-4; 24] = Ok (self, []) /\
    (ascending (c_codes self) /\
     (forall code, code ∈ c_codes self <-> code ∈ map f1 cond) /\
     nconds self = length (c_codes self) /\
     map (fun d => Some (label d)) (Hrf.cond self) =
       map (Spec.first_label cond) (c_codes self)).
Proof.
  eexists. split; [reflexivity|].
  apply (C7_conditions_sorted_by_code (Arr1 [])
           [Build_cond_row 0 2 "B"; Build_cond_row 1 1 "A"] 2 None [-4; 24] _ []).
  reflexivity.
Defined.

(* ================================================================== *)
(** * The FIR design matrices *)
(* ================================================================== *)

Section DesignMatrix.

Lemma getitem_Some {A} (l : list A) (i : nat) (a : A) :
  l !! i = Some a -> getitem l i = Ok a.
Proof. intros H. unfold getitem. rewrite H. reflexivity. Qed.

Lemma fixZ_comp (x y : Q) : x == y -> fixZ x = fixZ y.
Proof.
  intros E. unfold fixZ.
  rewrite (Qfloor_comp _ _ E), (Qceiling_comp _ _ E).
  destruct (Qle_bool 0 x) eqn:Hx, (Qle_bool 0 y) eqn:Hy; try reflexivity.
  - apply Qle_bool_iff in Hx. apply Qle_bool_false_iff in Hy. lra.
  - apply Qle_bool_iff in Hy. apply Qle_bool_false_iff in Hx. lra.
Qed.

(** Line 146 computes the acquisition times of the specification. *)
Lemma trScale_of_eq (self : HrfRetrieval) :
  ~ TR self == 0 ->
  trScale_of self = Ok (map (Spec.trScale (TR self)) (seq 0 (ntps self))).
Proof.
  intros HTR. unfold trScale_of, arange.
  apply Qeq_bool_false_iff in HTR as HTR'. rewrite HTR'.
  assert ((inject_Z (Z.of_nat (ntps self)) * TR self - 0) / TR self
          == inject_Z (Z.of_nat (ntps self))) as E by (field; exact HTR).
  rewrite (Qceiling_comp _ _ E), Qceiling_Z, Nat2Z.id. cbn [rbind].
  rewrite <- list_fmap_compose. f_equal. apply list_fmap_ext.
  intros i t _. cbn. unfold Spec.trScale. cbn. do 3 f_equal.
  apply fixZ_comp. ring.
Qed.

Lemma hit_matrix_ext (trScale : list npfloat) (n : nat) (hit hit' : npfloat -> nat -> bool) :
  (forall s k, s ∈ trScale -> (k < n)%nat -> hit s k = hit' s k) ->
  hit_matrix trScale n hit = hit_matrix trScale n hit'.
Proof.
  intros H. unfold hit_matrix. f_equal.
  apply list_fmap_ext. intros i s Hs. apply list_fmap_ext. intros j k Hk.
  apply lookup_seq in Hk as [-> Hk]. rewrite H; [reflexivity| |lia].
  apply list_elem_of_lookup. eauto.
Qed.

Lemma zeros_hit_matrix (trScale : list npfloat) (n : nat) :
  zeros (length trScale) n = hit_matrix trScale n (fun _ _ => false).
Proof.
  unfold zeros, full, hit_matrix. f_equal.
  induction trScale as [|s l IH]; cbn; [reflexivity|]. f_equal; [|exact IH].
  clear. generalize 0%nat. induction n as [|n IH]; intros a; cbn; [reflexivity|].
  f_equal. apply IH.
Qed.

(** One assignment [trE[trScale == tgt, Ntp] = 1]. *)
Lemma set_where_hit (trScale : list npfloat) (n Ntp : nat) (tgt : npfloat)
    (hit : npfloat -> nat -> bool) :
  (Ntp < n)%nat ->
  set_where (map (fun s => feqb s tgt) trScale) Ntp (hit_matrix trScale n hit) =
  Ok (hit_matrix trScale n
        (fun s k => hit s k || ((k =? Ntp)%nat && feqb s tgt))).
Proof.
  intros HN. unfold set_where, hit_matrix. cbn [nrows ncols rows].
  rewrite length_fmap, Nat.eqb_refl. do 2 f_equal.
  induction trScale as [|s l IH]; cbn; [reflexivity|]. f_equal; [|exact IH].
  apply list_eq. intros k.
  destruct (feqb s tgt) eqn:E.
  - destruct (decide (k = Ntp)) as [->|Hne].
    + rewrite list_lookup_insert_eq by (rewrite length_fmap, length_seq; exact HN).
      rewrite list_lookup_fmap, lookup_seq_lt by exact HN. cbn.
      rewrite Nat.eqb_refl, orb_true_r. reflexivity.
    + rewrite list_lookup_insert_ne by auto.
      rewrite !list_lookup_fmap. destruct (seq 0 n !! k) as [k'|] eqn:Hk; [|reflexivity].
      apply lookup_seq in Hk as [-> _]. cbn.
      destruct (Nat.eqb_spec k Ntp); [contradiction|]. rewrite orb_false_r. reflexivity.
  - rewrite !list_lookup_fmap. destruct (seq 0 n !! k) as [k'|]; [|reflexivity].
    cbn. rewrite andb_false_r, orb_false_r. reflexivity.
Qed.

(** The loop over the lags, for one event. *)
Lemma rfor_lags (trScale : list npfloat) (n : nat) (tgt : nat -> npfloat)
    (ks : list nat) (hit : npfloat -> nat -> bool) :
  (forall k, k ∈ ks -> (k < n)%nat) ->
  rfor ks (fun Ntp trE =>
             set_where (map (fun s => feqb s (tgt Ntp)) trScale) Ntp trE)
       (hit_matrix trScale n hit) =
  Ok (hit_matrix trScale n
        (fun s k => hit s k || (existsb (Nat.eqb k) ks && feqb s (tgt k)))).
Proof.
  revert hit. induction ks as [|a ks IH]; intros hit Hks; cbn [rfor].
  - f_equal. apply hit_matrix_ext. intros s k _ _. cbn. rewrite orb_false_r. reflexivity.
  - rewrite set_where_hit by (apply Hks, elem_of_cons; auto). cbn [rbind].
    rewrite IH by (intros k Hk; apply Hks, elem_of_cons; auto).
    f_equal. apply hit_matrix_ext. intros s k _ _. cbn [existsb].
    destruct (Nat.eqb_spec k a) as [->|Hne]; cbn.
    + destruct (hit s a), (feqb s (tgt a)), (existsb (Nat.eqb a) ks); reflexivity.
    + rewrite orb_false_r. reflexivity.
Qed.

Lemma existsb_seq (k n : nat) : (k < n)%nat -> existsb (Nat.eqb k) (seq 0 n) = true.
Proof.
  intros H. apply existsb_exists. exists k. split; [|apply Nat.eqb_refl].
  apply in_seq. lia.
Qed.

(** A loop over [range(len(l))] that reads [l[i]] is a loop over [l]. *)
Lemma rfor_range_getitem {A St} (l : list A) (body : A -> St -> result St) (s : St) :
  rfor (seq 0 (length l))
       (fun i s => (x <- getitem l i ;; body x s)%py) s =
  rfor l body s.
Proof.
  assert (forall (pre : list A) s,
            rfor (seq (length pre) (length l))
                 (fun i s => (x <- getitem (pre ++ l) i ;; body x s)%py) s =
            rfor l body s) as H.
  { induction l as [|a l IH]; intros pre s'; cbn [length seq rfor]; [reflexivity|].
    unfold getitem at 1. rewrite lookup_app_r, Nat.sub_diag by lia. cbn [lookup list_lookup rbind].
    destruct (body a s') as [s''|e]; cbn [rbind]; [|reflexivity].
    specialize (IH (pre ++ [a]) s''). rewrite length_app, Nat.add_1_r in IH.
    rewrite <- app_assoc in IH. exact IH. }
  apply (H [] s).
Qed.

(** The loop over the events. *)
Lemma rfor_trials (trScale : list npfloat) (n : nat) (tgt : npfloat -> nat -> npfloat)
    (onsets : list npfloat) (hit : npfloat -> nat -> bool) :
  rfor onsets
       (fun onset trE =>
          rfor (seq 0 n)
               (fun Ntp trE =>
                  set_where (map (fun s => feqb s (tgt onset Ntp)) trScale) Ntp trE)
               trE)
       (hit_matrix trScale n hit) =
  Ok (hit_matrix trScale n
        (fun s k => hit s k || existsb (fun o => feqb s (tgt o k)) onsets)).
Proof.
  revert hit. induction onsets as [|o os IH]; intros hit; cbn [rfor].
  - f_equal. apply hit_matrix_ext. intros s k _ _. cbn. rewrite orb_false_r. reflexivity.
  - rewrite (rfor_lags trScale n (tgt o)) by (intros k Hk%elem_of_seq; lia).
    cbn [rbind]. rewrite IH. f_equal. apply hit_matrix_ext. intros s k _ Hk.
    rewrite existsb_seq by exact Hk. cbn. rewrite orb_assoc. reflexivity.
Qed.

Lemma build_trE_eq (self : HrfRetrieval) (c : nat) (code : Z) :
  c_codes self !! c = Some code ->
  length (event_number self) = length (event_timing self) ->
  ~ TR self == 0 ->
  build_trE self c = Ok (design_matrix self code).
Proof.
  intros Hc Hlen HTR. unfold build_trE. rewrite (getitem_Some _ _ _ Hc). cbn [rbind].
  unfold rounded_onsets_of, getmask. rewrite length_fmap, Hlen, Nat.eqb_refl.
  cbn [rbind]. rewrite trScale_of_eq by exact HTR. cbn [rbind].
  rewrite rfor_range_getitem.
  replace (ntps self) with (length (map (Spec.trScale (TR self)) (seq 0 (ntps self)))) at 1
    by (rewrite length_fmap, length_seq; reflexivity).
  rewrite zeros_hit_matrix.
  rewrite (rfor_trials _ _ (target self)). reflexivity.
Qed.

Lemma tcell_tbuild (n0 n1 n2 : nat) (f : nat -> nat -> nat -> npfloat) (t k c : nat) :
  (t < n0)%nat -> (k < n1)%nat -> (c < n2)%nat ->
  tcell (tbuild n0 n1 n2 f) t k c = f t k c.
Proof.
  intros Ht Hk Hc. unfold tcell, tbuild. cbn [cells].
  rewrite list_lookup_fmap, lookup_seq_lt by exact Ht. cbn.
  rewrite list_lookup_fmap, lookup_seq_lt by exact Hk. cbn.
  rewrite list_lookup_fmap, lookup_seq_lt by exact Hc. reflexivity.
Qed.

Lemma tbuild_ext (n0 n1 n2 : nat) (f g : nat -> nat -> nat -> npfloat) :
  (forall t k c, (t < n0)%nat -> (k < n1)%nat -> (c < n2)%nat -> f t k c = g t k c) ->
  tbuild n0 n1 n2 f = tbuild n0 n1 n2 g.
Proof.
  intros H. unfold tbuild. f_equal.
  apply list_fmap_ext. intros ? t [-> Ht]%lookup_seq.
  apply list_fmap_ext. intros ? k [-> Hk]%lookup_seq.
  apply list_fmap_ext. intros ? c [-> Hc]%lookup_seq.
  apply H; lia.
Qed.

Section Build.

Variable self : HrfRetrieval.
Hypothesis Hwf : wf_obj self.
Hypothesis HTR : ~ TR self == 0.
Hypothesis HnH : (0 <= nHEst self)%Z.

Lemma state_eq (T T' : tensor) (cs cs' : list cond_dict) :
  T = T' -> cs = cs' ->
  set_model (Some T) (set_cond cs self) = set_model (Some T') (set_cond cs' self).
Proof. intros -> ->. reflexivity. Qed.

Lemma getFIRmodel_loop (k a : nat) :
  (a + k = nconds self)%nat ->
  mfor (seq a k)
    (fun c =>
       trE <~ (fun self => (build_trE self c, self)) ;;
       cond_setitem c (put_model trE) ;;;
       T <~ get_model ;;
       T' <~ lift (set_plane c trE T) ;;
       modify (set_model (Some T')))%py
    (built_upto self a) = (Ok tt, built_upto self (a + k)).
Proof.
  destruct Hwf as (Hcodes & Hcond & Hev).
  revert a. induction k as [|k IH]; intros a Hak; cbn [seq mfor].
  - rewrite Nat.add_0_r. reflexivity.
  - assert (a < nconds self)%nat as Ha by lia.
    destruct (lookup_lt_is_Some_2 (c_codes self) a) as [code Hcode]; [lia|].
    destruct (lookup_lt_is_Some_2 (cond self) a) as [d Hd]; [lia|].
    unfold bindM at 1. unfold bindM at 1.
    assert (build_trE (built_upto self a) a = Ok (design_c self a)) as ->.
    { change (build_trE self a = Ok (design_c self a)). unfold design_c. rewrite Hcode.
      apply build_trE_eq; assumption. }
    unfold bindM at 1. unfold cond_setitem at 1.
    assert (cond (built_upto self a) !! a = Some d) as ->.
    { cbn [built_upto set_model set_cond cond]. rewrite list_lookup_imap, Hd.
      cbn [fmap option_fmap option_map]. rewrite Nat.ltb_irrefl. reflexivity. }
    unfold bindM at 1. unfold get_model at 1. cbn [set_cond set_model model built_upto].
    unfold bindM at 1. unfold lift at 1, set_plane. cbn [shape tbuild].
    apply Nat.ltb_lt in Ha as Ha'. rewrite Ha'. cbn [negb].
    assert (nrows (design_c self a) = ntps self) as ->.
    { unfold design_c, design_matrix, hit_matrix. cbn [nrows].
      rewrite length_fmap, length_seq. reflexivity. }
    cbn [design_c design_matrix hit_matrix ncols]. rewrite !Nat.eqb_refl. cbn [andb negb].
    unfold modify at 1.
    replace (a + S k)%nat with (S a + k)%nat by lia. rewrite <- IH by lia.
    f_equal.
    match goal with
    | |- set_model (Some ?X) (set_cond ?Y _) = _ =>
        transitivity (set_model (Some X) (set_cond Y self)); [reflexivity|]
    end.
    unfold built_upto. apply state_eq.
    + apply tbuild_ext. intros t k' c Ht Hk Hc.
      rewrite tcell_tbuild by assumption.
      destruct (Nat.eqb_spec c a) as [->|Hne].
      * assert ((a <? S a)%nat = true) as -> by (apply Nat.ltb_lt; lia). reflexivity.
      * destruct (Nat.ltb_spec c a), (Nat.ltb_spec c (S a)); try reflexivity; lia.
    + change (cond (set_model _ (set_cond ?cs self))) with cs.
      apply list_eq. intros c. destruct (decide (c = a)) as [->|Hne].
      * rewrite list_lookup_insert_eq by (rewrite length_imap; lia).
        rewrite list_lookup_imap, Hd. cbn [fmap option_fmap option_map].
        assert ((a <? S a)%nat = true) as -> by (apply Nat.ltb_lt; lia). reflexivity.
      * rewrite list_lookup_insert_ne by auto. rewrite !list_lookup_imap.
        destruct (cond self !! c); [|reflexivity]. cbn [fmap option_fmap option_map].
        destruct (Nat.ltb_spec c a), (Nat.ltb_spec c (S a)); try reflexivity; lia.
Qed.

Lemma getFIRmodel_eq : getFIRmodel self = (Ok tt, built_upto self (nconds self)).
Proof.
  pose proof (getFIRmodel_loop (nconds self) 0 eq_refl) as H. cbn [Nat.add] in H.
  unfold getFIRmodel. apply Z.ltb_ge in HnH as ->.
  change (nconds (set_model _ self)) with (nconds self).
  rewrite <- H. f_equal.
  assert (imap (fun c d => if (c <? 0)%nat then put_model (design_c self c) d else d)
               (cond self) = cond self) as E.
  { apply list_eq. intros c. rewrite list_lookup_imap.
    destruct (cond self !! c); reflexivity. }
  unfold built_upto. rewrite E. destruct self. reflexivity.
Qed.

End Build.

End DesignMatrix.

Section DesignMatrixEntries.

Lemma cell_hit_matrix (trScale : list npfloat) (n : nat)
    (hit : npfloat -> nat -> bool) (t k : nat) (s : npfloat) :
  trScale !! t = Some s -> (k < n)%nat ->
  cell (hit_matrix trScale n hit) t k = Some (if hit s k then Fin 1 else Fin 0).
Proof.
  intros Ht Hk. unfold cell, hit_matrix. cbn [rows].
  rewrite list_lookup_fmap, Ht. cbn.
  rewrite list_lookup_fmap, lookup_seq_lt by exact Hk. reflexivity.
Qed.

Lemma elem_of_compress {A} (mask : list bool) (l : list A) (x : A) :
  x ∈ compress mask l <-> exists i, mask !! i = Some true /\ l !! i = Some x.
Proof.
  revert l. induction mask as [|b mask IH]; intros l; cbn.
  - split; [intros H; inversion H|intros (i & H & _); destruct i; discriminate].
  - destruct l as [|y l].
    + split; [intros H; inversion H|intros (i & _ & H); destruct i; discriminate].
    + destruct b.
      * rewrite elem_of_cons, IH. split.
        -- intros [->|(i & Hm & Hl)]; [exists 0%nat|exists (S i)]; auto.
        -- intros ([|i] & Hm & Hl); cbn in *; [left; congruence|right; eauto].
      * rewrite IH. split.
        -- intros (i & Hm & Hl). exists (S i). auto.
        -- intros ([|i] & Hm & Hl); cbn in *; [discriminate|eauto].
Qed.

(** A lag of a sample is hit exactly when an event of the condition has its
    target there. *)
Lemma hit_iff_event (self : HrfRetrieval) (code : Z) (s : npfloat) (k : nat) :
  existsb (fun o => feqb s (target self o k))
    (map (Spec.rounded_onset (ER self))
         (compress (map (fun n => (n =? code)%Z) (event_number self))
                   (event_timing self))) = true <->
  exists i onset, Spec.event_of self code i onset /\
    feqb s (Spec.target (ER self) (nPreStim self) onset k) = true.
Proof.
  rewrite existsb_exists. split.
  - intros (o & Ho & Hf). apply list_elem_of_In, list_elem_of_fmap in Ho as (onset & -> & Ho).
    apply elem_of_compress in Ho as (i & Hm & Hl).
    rewrite list_lookup_fmap in Hm.
    destruct (event_number self !! i) as [n|] eqn:Hn; [|discriminate].
    cbn in Hm. injection Hm as Hm. apply Z.eqb_eq in Hm as ->.
    exists i, onset. split; [split; assumption|exact Hf].
  - intros (i & onset & [Hn Hl] & Hf).
    exists (Spec.rounded_onset (ER self) onset). split; [|exact Hf].
    apply list_elem_of_In, list_elem_of_fmap. exists onset. split; [reflexivity|].
    apply elem_of_compress. exists i. split; [|exact Hl].
    rewrite list_lookup_fmap, Hn. cbn. rewrite Z.eqb_refl. reflexivity.
Qed.

End DesignMatrixEntries.



Section ColumnSums.









End ColumnSums.

(* ================================================================== *)
(** * [estimateHRF]: what it leaves alone and when it raises *)
(* ================================================================== *)

Section Quiet.

Lemma quiet_retM {A} (a : A) : quiet (retM a).
Proof. intros s. split; [reflexivity|]. intros str H. discriminate H. Qed.

Lemma quiet_bindM {A B} (m : M A) (k : A -> M B) :
  quiet m -> (forall a, quiet (k a)) -> quiet (bindM m k).
Proof.
  intros Hm Hk s. unfold bindM. destruct (Hm s) as [Hd Hr].
  destruct (m s) as [[a|e] s']; cbn in *.
  - destruct (Hk a s') as [Hd' Hr']. split; [congruence|exact Hr'].
  - split; [exact Hd|]. intros str [= ->]. apply (Hr str). reflexivity.
Qed.

Lemma quiet_lift {A} (r : result A) : no_ude r -> quiet (lift r).
Proof. intros Hr s. split; [reflexivity|exact Hr]. Qed.

Lemma quiet_gets {A} (f : HrfRetrieval -> A) : quiet (gets f).
Proof. intros s. split; [reflexivity|]. intros str H. discriminate H. Qed.

Lemma quiet_get_model : quiet get_model.
Proof.
  intros s. unfold get_model. destruct (model s); (split; [reflexivity|]);
    intros str H; discriminate H.
Qed.

Lemma quiet_set_metric (m : option string) : quiet (modify (set_metric m)).
Proof. intros s. split; [reflexivity|]. intros str H. discriminate H. Qed.

Lemma quiet_cond_setitem (c : nat) (put : cond_dict -> cond_dict) :
  (forall d, model_ (put d) = model_ d) -> quiet (cond_setitem c put).
Proof.
  intros Hput s. unfold cond_setitem.
  destruct (cond s !! c) as [d|] eqn:Hd; cbn.
  - split; [|intros str H; discriminate H].
    unfold design_part. cbn. f_equal.
    rewrite list_fmap_insert, Hput. apply list_insert_id.
    rewrite list_lookup_fmap, Hd. reflexivity.
  - split; [reflexivity|]. intros str H. discriminate H.
Qed.

Lemma quiet_mfor {A} (l : list A) (body : A -> M unit) :
  (forall a, quiet (body a)) -> quiet (mfor l body).
Proof.
  intros Hb. induction l as [|a l IH]; cbn [mfor].
  - apply quiet_retM.
  - apply quiet_bindM; [apply Hb|intros _; exact IH].
Qed.

Lemma no_ude_Ok {A} (a : A) : no_ude (Ok a).
Proof. intros str H. discriminate H. Qed.

Lemma no_ude_rbind {A B} (r : result A) (k : A -> result B) :
  no_ude r -> (forall a, no_ude (k a)) -> no_ude (rbind r k).
Proof.
  intros Hr Hk. destruct r as [a|e]; cbn; [apply Hk|].
  intros str [= ->]. apply (Hr str). reflexivity.
Qed.

Ltac no_ude_tac :=
  repeat first
    [ apply no_ude_Ok
    | apply no_ude_rbind; [|intros ?]
    | match goal with
      | |- no_ude (if ?b then _ else _) => destruct b
      | |- no_ude (match ?x with _ => _ end) => destruct x
      | |- no_ude (Raise _) => intros ? ?; discriminate
      end ].

Lemma no_ude_fir_design (T : tensor) : no_ude (fir_design T).
Proof.
  unfold fir_design. apply no_ude_rbind; [|intros ?; apply no_ude_Ok].
  unfold reshapeF. destruct (shape T) as [[n0 n1] n2]. no_ude_tac.
Qed.

Lemma no_ude_dot_nd (p : matrix) (a : ndarray) : no_ude (dot_nd p a).
Proof. unfold dot_nd, dot_mv, dot_mm. no_ude_tac. Qed.

Lemma no_ude_get_plane (c : nat) (T : tensor) : no_ude (get_plane c T).
Proof. unfold get_plane. destruct (shape T) as [[n0 n1] n2]. no_ude_tac. Qed.

Lemma no_ude_average_of (tc : ndarray) (ind : list bool) (m : matrix) :
  no_ude (average_of tc ind m).
Proof. unfold average_of, dot_vm, dot_mm, getmask. no_ude_tac. Qed.

Variable pinv : matrix -> option matrix.

Lemma no_ude_call_pinv (a : matrix) : no_ude (call_pinv pinv a).
Proof. unfold call_pinv. no_ude_tac. Qed.

(** The two estimation paths, after the metric is recorded. *)
Lemma estimateHRF_unfold (metric : string) (self : HrfRetrieval) :
  estimateHRF pinv metric self =
  (if String.eqb metric "FIR" then
     (T <~ get_model ;;
      design <~ lift (fir_design T) ;;
      p <~ lift (call_pinv pinv design) ;;
      tc <~ gets tc ;;
      b_est <~ lift (dot_nd p (T_ tc)) ;;
      nconds <~ gets nconds ;;
      nHEst <~ gets nHEst ;;
      mfor (seq 0 nconds) (fun c =>
        cond_setitem c
          (put_FIR_hrf (T_ (slice_nd b_est (Z.to_nat (Z.of_nat c * nHEst))
                                     (Z.to_nat (Z.of_nat c * nHEst + nHEst)))))))%py
   else if String.eqb metric "average" then
     (tscale <~ gets tscale ;;
      nconds <~ gets nconds ;;
      mfor (seq 0 nconds) (fun c =>
        T <~ get_model ;;
        model <~ lift (get_plane c T) ;;
        tc <~ gets tc ;;
        avg <~ lift (average_of tc (map (fun x => Py.lt x 0) tscale) model) ;;
        cond_setitem c (put_average_hrf avg)))%py
   else lift (Raise (UserDefinedException "Metric can only be FIR/average!")))
    (set_metric (Some metric) self).
Proof. reflexivity. Qed.

Lemma quiet_FIR_path :
  quiet (T <~ get_model ;;
      design <~ lift (fir_design T) ;;
      p <~ lift (call_pinv pinv design) ;;
      tc <~ gets tc ;;
      b_est <~ lift (dot_nd p (T_ tc)) ;;
      nconds <~ gets nconds ;;
      nHEst <~ gets nHEst ;;
      mfor (seq 0 nconds) (fun c =>
        cond_setitem c
          (put_FIR_hrf (T_ (slice_nd b_est (Z.to_nat (Z.of_nat c * nHEst))
                                     (Z.to_nat (Z.of_nat c * nHEst + nHEst)))))))%py.
Proof.
  apply quiet_bindM; [apply quiet_get_model|intros T].
  apply quiet_bindM; [apply quiet_lift, no_ude_fir_design|intros design].
  apply quiet_bindM; [apply quiet_lift, no_ude_call_pinv|intros p].
  apply quiet_bindM; [apply quiet_gets|intros tc].
  apply quiet_bindM; [apply quiet_lift, no_ude_dot_nd|intros b_est].
  apply quiet_bindM; [apply quiet_gets|intros n].
  apply quiet_bindM; [apply quiet_gets|intros nH].
  apply quiet_mfor. intros c. apply quiet_cond_setitem. reflexivity.
Qed.

Lemma quiet_average_path :
  quiet (tscale <~ gets tscale ;;
      nconds <~ gets nconds ;;
      mfor (seq 0 nconds) (fun c =>
        T <~ get_model ;;
        model <~ lift (get_plane c T) ;;
        tc <~ gets tc ;;
        avg <~ lift (average_of tc (map (fun x => Py.lt x 0) tscale) model) ;;
        cond_setitem c (put_average_hrf avg)))%py.
Proof.
  apply quiet_bindM; [apply quiet_gets|intros ts].
  apply quiet_bindM; [apply quiet_gets|intros n].
  apply quiet_mfor. intros c.
  apply quiet_bindM; [apply quiet_get_model|intros T].
  apply quiet_bindM; [apply quiet_lift, no_ude_get_plane|intros m].
  apply quiet_bindM; [apply quiet_gets|intros tc].
  apply quiet_bindM; [apply quiet_lift, no_ude_average_of|intros avg].
  apply quiet_cond_setitem. reflexivity.
Qed.


(** [estimateHRF] raises its exception exactly for a metric that is
    neither ['FIR'] nor ['average'], and then it has only recorded the
    metric. *)
Lemma estimateHRF_raises_iff (metric : string) (self : HrfRetrieval) :
  (exists str self', estimateHRF pinv metric self =
                       (Raise (UserDefinedException str), self')) <->
  metric <> "FIR"%string /\ metric <> "average"%string.
Proof.
  rewrite estimateHRF_unfold. split.
  - intros (str & self' & H).
    destruct (String.eqb_spec metric "FIR") as [->|HF].
    + exfalso. destruct (quiet_FIR_path (set_metric (Some "FIR"%string) self)) as [_ Hr].
      rewrite H in Hr. apply (Hr str). reflexivity.
    + destruct (String.eqb_spec metric "average") as [->|HA]; [|auto].
      exfalso.
      destruct (quiet_average_path (set_metric (Some "average"%string) self)) as [_ Hr].
      rewrite H in Hr. apply (Hr str). reflexivity.
  - intros [HF HA]. apply String.eqb_neq in HF, HA. rewrite HF, HA.
    eexists _, _. reflexivity.
Qed.

Lemma estimateHRF_invalid (metric : string) (self : HrfRetrieval) :
  metric <> "FIR"%string -> metric <> "average"%string ->
  estimateHRF pinv metric self =
    (Raise (UserDefinedException "Metric can only be FIR/average!"),
     set_metric (Some metric) self).
Proof.
  intros HF HA. rewrite estimateHRF_unfold.
  apply String.eqb_neq in HF, HA. rewrite HF, HA. reflexivity.
Qed.

End Quiet.

(** C6 as stated fails: on the metric ["bogus"] the call raises, but the
    object is not what it was, its attribute [metric] now holds the
    rejected name. *)
Lemma C6_counterexample :
  exists self',
    estimateHRF (fun _ => None) "bogus" Example.obj1 =
      (Raise (UserDefinedException "Metric can only be FIR/average!"), self') /\
    metric Example.obj1 = None /\ metric self' = Some "bogus"%string /\
    self' <> Example.obj1.
Proof.
  eexists. split; [reflexivity|]. split; [reflexivity|]. split; [reflexivity|].
  intros H. apply (f_equal metric) in H. discriminate H.
Qed.

(** C6, amended: [estimateHRF] raises its exception if and only if the
    metric is neither ['FIR'] nor ['average']; the object is then the one
    before the call with the rejected name stored in [metric]: the
    condition records, with their estimates, and every other attribute are
    unchanged. *)
Theorem C6_invalid_metric (pinv : matrix -> option matrix) (metric : string)
    (self : HrfRetrieval) :
  ((exists str self', estimateHRF pinv metric self =
                        (Raise (UserDefinedException str), self')) <->
   metric <> "FIR"%string /\ metric <> "average"%string) /\
  forall str self',
    estimateHRF pinv metric self = (Raise (UserDefinedException str), self') ->
    self' = set_metric (Some metric) self /\
    cond self' = cond self /\ model self' = model self /\
    Hrf.metric self' = Some metric.
Proof.
  split; [apply estimateHRF_raises_iff|].
  intros str self' H.
  assert (metric <> "FIR"%string /\ metric <> "average"%string) as [HF HA].
  { apply (estimateHRF_raises_iff pinv metric self). eauto. }
  rewrite (estimateHRF_invalid pinv metric self HF HA) in H.
  injection H as _ <-. repeat split; reflexivity.
Qed.

Section Collisions.

Lemma trScale_Fin (TR : Q) (t : nat) :
  Spec.trScale TR t =
  Fin (inject_Z (fixZ (inject_Z (Z.of_nat t) * TR * 10000)) / 10000).
Proof. reflexivity. Qed.

Lemma Qfloor_lower (z : Z) (x : Q) : inject_Z z <= x -> (z <= Qfloor x)%Z.
Proof. intros H. rewrite <- (Qfloor_Z z). apply Qfloor_resp_le, H. Qed.

(** With a repetition time of 0.1 ms or more, the acquisition grid has no
    collision. *)
Lemma no_collision_of_TR (TR : Q) (ntps : nat) :
  (1 # 10000) <= TR -> Spec.no_collision TR ntps.
Proof.
  intros HTR.
  assert (forall t t' : nat, (t < t')%nat ->
            feqb (Spec.trScale TR t) (Spec.trScale TR t') = false) as Hlt.
  { intros t t' Htt. rewrite !trScale_Fin. cbn [feqb].
    apply Qeq_bool_false_iff. intros E.
    assert (inject_Z (fixZ (inject_Z (Z.of_nat t) * TR * 10000)) ==
            inject_Z (fixZ (inject_Z (Z.of_nat t') * TR * 10000))) as E'.
    { unfold Qdiv in E. apply Qmult_inj_r in E; [exact E|discriminate]. }
    rewrite inject_Z_injective in E'.
    assert (0 <= inject_Z (Z.of_nat t)) as H0.
    { change 0 with (inject_Z 0). rewrite <- Zle_Qle. lia. }
    assert (inject_Z (Z.of_nat t) + 1 <= inject_Z (Z.of_nat t')) as H1.
    { change 1 with (inject_Z 1). rewrite <- inject_Z_plus, <- Zle_Qle. lia. }
    assert (1 <= TR * 10000) as Ha by lra.
    assert (0 <= inject_Z (Z.of_nat t) * TR * 10000) as Hx by nra.
    assert (inject_Z (Z.of_nat t) * TR * 10000 + 1
            <= inject_Z (Z.of_nat t') * TR * 10000) as Hstep by nra.
    unfold fixZ in E'.
    apply Qle_bool_iff in Hx as Hxb. rewrite Hxb in E'.
    assert (0 <= inject_Z (Z.of_nat t') * TR * 10000) as Hx' by lra.
    apply Qle_bool_iff in Hx' as Hxb'. rewrite Hxb' in E'.
    pose proof (Qfloor_le (inject_Z (Z.of_nat t) * TR * 10000)) as Hfl.
    assert (Qfloor (inject_Z (Z.of_nat t) * TR * 10000) + 1
            <= Qfloor (inject_Z (Z.of_nat t') * TR * 10000))%Z.
    { apply Qfloor_lower. rewrite inject_Z_plus. change (inject_Z 1) with 1. lra. }
    lia. }
  intros t t' _ _ E.
  destruct (Nat.lt_trichotomy t t') as [H|[H|H]]; [|exact H|].
  - rewrite (Hlt t t' H) in E. discriminate.
  - assert (feqb (Spec.trScale TR t') (Spec.trScale TR t) = true) as E'.
    { rewrite !trScale_Fin in *. cbn [feqb] in *.
      apply Qeq_bool_true_iff. apply Qeq_bool_true_iff in E. symmetry. exact E. }
    rewrite (Hlt t' t H) in E'. discriminate.
Qed.


End Collisions.


Lemma wf_obj_example : wf_obj Example.obj0.
Proof. repeat split. Qed.

Lemma TR_example : ~ TR Example.obj0 == 0.
Proof. intros H. discriminate H. Qed.

Lemma nHEst_example : (0 <= nHEst Example.obj0)%Z.
Proof. cbn. lia. Qed.


(* ================================================================== *)
(** * The two estimation paths *)
(* ================================================================== *)


Section Matrices.


Lemma cell_mbuild (n m : nat) (g : nat -> nat -> npfloat) (t j : nat) :
  (t < n)%nat -> (j < m)%nat -> cell (mbuild n m g) t j = Some (g t j).
Proof.
  intros Ht Hj. unfold cell, mbuild. cbn [rows].
  rewrite list_lookup_fmap, lookup_seq_lt by exact Ht. cbn.
  rewrite list_lookup_fmap, lookup_seq_lt by exact Hj. reflexivity.
Qed.

Lemma col_mbuild (n m : nat) (g : nat -> nat -> npfloat) (j : nat) :
  (j < m)%nat -> col j (mbuild n m g) = map (fun t => g t j) (seq 0 n).
Proof.
  intros Hj. unfold col, mbuild. cbn [rows].
  rewrite <- list_fmap_compose. apply list_fmap_ext. intros ? t _. cbn.
  rewrite list_lookup_fmap, lookup_seq_lt by exact Hj. reflexivity.
Qed.

Lemma transpose_mbuild (n m : nat) (g : nat -> nat -> npfloat) :
  transpose (mbuild n m g) = mbuild m n (fun j t => g t j).
Proof.
  unfold transpose. cbn [nrows ncols mbuild]. unfold mbuild at 2. f_equal.
  apply list_fmap_ext. intros i j [-> Hj]%lookup_seq.
  apply (col_mbuild n m g). lia.
Qed.

Lemma zip_with_fmap_same {A B C D} (h : B -> C -> D) (f : A -> B) (g : A -> C)
    (l : list A) :
  zip_with h (map f l) (map g l) = map (fun x => h (f x) (g x)) l.
Proof. induction l as [|x l IH]; cbn; [reflexivity|]. f_equal. exact IH. Qed.

(** Blocks of equal length laid one after the other. *)
Lemma bind_seq_lookup {A} (L : nat) (f : nat -> list A) (a n i j : nat) :
  (forall i, length (f i) = L) -> (i < n)%nat -> (j < L)%nat ->
  (seq a n ≫= f) !! (j + L * i)%nat = f (a + i)%nat !! j.
Proof.
  intros HL. revert a i. induction n as [|n IH]; intros a i Hi Hj; [lia|].
  cbn [seq]. rewrite bind_cons. destruct i as [|i].
  - rewrite Nat.mul_0_r, !Nat.add_0_r. apply lookup_app_l. rewrite HL. exact Hj.
  - rewrite lookup_app_r by (rewrite HL; nia).
    rewrite HL. replace (j + L * S i - L)%nat with (j + L * i)%nat by nia.
    rewrite IH by lia. f_equal. f_equal. lia.
Qed.

Lemma length_bind_seq {A} (L : nat) (f : nat -> list A) (a n : nat) :
  (forall i, length (f i) = L) -> length (seq a n ≫= f) = (n * L)%nat.
Proof.
  intros HL. revert a. induction n as [|n IH]; intros a; [reflexivity|].
  cbn [seq]. rewrite bind_cons, length_app, HL, IH. lia.
Qed.

(** The F-order ravel puts the cell [(t, k, c)] at [t + n0*(k + n1*c)]. *)
Lemma ravelF_lookup (T : tensor) (n0 n1 n2 t k c : nat) :
  shape T = (n0, n1, n2) -> (t < n0)%nat -> (k < n1)%nat -> (c < n2)%nat ->
  ravelF T !! (t + n0 * (k + n1 * c))%nat = Some (tcell T t k c).
Proof.
  intros Hs Ht Hk Hc. unfold ravelF. rewrite Hs.
  replace (t + n0 * (k + n1 * c))%nat with ((t + n0 * k) + (n1 * n0) * c)%nat by nia.
  rewrite (bind_seq_lookup (n1 * n0)); [|intros i|exact Hc|nia].
  2:{ rewrite (length_bind_seq n0); [lia|]. intros i'.
      rewrite (length_bind_seq 1); [lia|reflexivity]. }
  rewrite Nat.add_0_l.
  rewrite (bind_seq_lookup n0); [|intros i|exact Hk|exact Ht].
  2:{ rewrite (length_bind_seq 1); [lia|reflexivity]. }
  rewrite Nat.add_0_l.
  replace t with (0 + 1 * t)%nat at 1 by lia.
  rewrite (bind_seq_lookup 1); [|reflexivity|exact Ht|lia].
  reflexivity.
Qed.

(** The reshape of line 178 in closed form: column [j] of the result holds
    lag [j mod n1] of condition [j / n1]. *)
Lemma reshapeF_eq (T : tensor) (n0 n1 n2 : nat) :
  shape T = (n0, n1, n2) -> (0 < n0)%nat ->
  reshapeF T =
  Ok (mbuild n0 (n1 * n2) (fun t j => tcell T t (j mod n1) (j / n1))).
Proof.
  intros Hs Hn0. unfold reshapeF. rewrite Hs.
  destruct (Nat.eqb_spec n0 0) as [?|_]; [lia|].
  replace (n0 * n1 * n2 / n0)%nat with (n1 * n2)%nat
    by (replace (n0 * n1 * n2)%nat with (n1 * n2 * n0)%nat by lia;
        symmetry; apply Nat.div_mul; lia).
  unfold mbuild. do 2 f_equal.
  apply list_fmap_ext. intros t ? [-> Ht]%lookup_seq. cbn [Nat.add].
  apply list_fmap_ext. intros j ? [-> Hj]%lookup_seq. cbn [Nat.add]. cbn [Nat.add].
  assert (0 < n1)%nat as Hn1 by nia.
  pose proof (Nat.div_mod_eq j n1) as Hdm.
  pose proof (Nat.mod_upper_bound j n1 ltac:(lia)) as Hmod.
  assert (j / n1 < n2)%nat as Hdiv by (apply Nat.Div0.div_lt_upper_bound; lia).
  rewrite Hdm at 1. rewrite (Nat.add_comm (n1 * _)).
  rewrite (ravelF_lookup T n0 n1 n2) by assumption. reflexivity.
Qed.

(** Lines 178-188 in closed form: the demeaned columns, then the column of
    ones. *)
Lemma fir_design_eq (T : tensor) (n0 n1 n2 : nat) :
  shape T = (n0, n1, n2) -> (0 < n0)%nat ->
  fir_design T =
  Ok (mbuild n0 (n1 * n2 + 1)
        (fun t j => if (j <? n1 * n2)%nat
                    then fsub (tcell T t (j mod n1) (j / n1)) (column_mean T n0 n1 j)
                    else Fin 1)).
Proof.
  intros Hs Hn0. unfold fir_design. rewrite (reshapeF_eq T n0 n1 n2 Hs Hn0).
  cbn [rbind]. f_equal.
  assert (mean_axis0 (mbuild n0 (n1 * n2)
                        (fun t j => tcell T t (j mod n1) (j / n1))) =
          map (column_mean T n0 n1) (seq 0 (n1 * n2))) as ->.
  { unfold mean_axis0. cbn [ncols nrows mbuild].
    apply list_fmap_ext. intros j ? [-> Hj]%lookup_seq. cbn [Nat.add].
    rewrite col_mbuild by lia. reflexivity. }
  rewrite transpose_mbuild.
  assert (sub_colvec
            (mbuild (n1 * n2) n0 (fun j t => tcell T t (j mod n1) (j / n1)))
            (map (column_mean T n0 n1) (seq 0 (n1 * n2))) =
          mbuild (n1 * n2) n0
            (fun j t => fsub (tcell T t (j mod n1) (j / n1)) (column_mean T n0 n1 j)))
    as ->.
  { unfold sub_colvec, mbuild. cbn [nrows ncols rows]. f_equal.
    rewrite zip_with_fmap_same. apply list_fmap_ext. intros ? j _. cbn.
    rewrite <- list_fmap_compose. reflexivity. }
  rewrite transpose_mbuild.
  unfold set_but_last, ones, full, mbuild. cbn [nrows ncols rows]. f_equal.
  clear Hs Hn0. generalize (n1 * n2)%nat as m. intros m.
  assert (forall a n, zip_with (fun orow drow => drow ++ drop (length drow) orow)
            (replicate n (replicate (m + 1) (Fin 1)))
            (map (fun t => map (fun j => fsub (tcell T t (j mod n1) (j / n1))
                                             (column_mean T n0 n1 j)) (seq 0 m))
                 (seq a n)) =
          map (fun t => map (fun j => if (j <? m)%nat
                                      then fsub (tcell T t (j mod n1) (j / n1))
                                                (column_mean T n0 n1 j)
                                      else Fin 1) (seq 0 (m + 1)))
              (seq a n)) as H.
  { intros a n. revert a.
    induction n as [|n IH]; intros a; cbn [seq replicate fmap list_fmap zip_with];
      [reflexivity|].
    f_equal; [|apply IH].
    rewrite length_fmap, length_seq, drop_replicate.
    replace (m + 1 - m)%nat with 1%nat by lia. cbn [replicate].
    rewrite seq_app, fmap_app. cbn [seq fmap list_fmap Nat.add].
    rewrite Nat.ltb_irrefl. f_equal.
    apply list_fmap_ext. intros j ? [-> Hj]%lookup_seq. cbn [Nat.add].
    assert ((j <? m)%nat = true) as -> by (apply Nat.ltb_lt; lia). reflexivity. }
  apply H.
Qed.

End Matrices.

Section Loops.

(** A loop that stores one entry in each condition record. *)
Lemma mfor_cond_setitem (body : nat -> M unit)
    (put : nat -> cond_dict -> cond_dict) (self : HrfRetrieval) :
  (forall c cs, (c < length (cond self))%nat ->
     body c (set_cond cs self) = cond_setitem c (put c) (set_cond cs self)) ->
  mfor (seq 0 (length (cond self))) body self =
  (Ok tt, set_cond (imap put (cond self)) self).
Proof.
  intros Hbody.
  pose (f := fun (a c : nat) (d : cond_dict) => if (c <? a)%nat then put c d else d).
  assert (forall k a, (a + k = length (cond self))%nat ->
            mfor (seq a k) body (set_cond (imap (f a) (cond self)) self) =
            (Ok tt, set_cond (imap (f (a + k)%nat) (cond self)) self)) as Hloop.
  { induction k as [|k IH]; intros a Hak; cbn [seq mfor].
    - rewrite Nat.add_0_r. reflexivity.
    - unfold bindM at 1. rewrite Hbody by lia. unfold cond_setitem.
      change (cond (set_cond ?cs self)) with cs.
      destruct (lookup_lt_is_Some_2 (cond self) a) as [d Hd]; [lia|].
      rewrite list_lookup_imap, Hd. cbn [fmap option_fmap option_map].
      change (set_cond ?cs (set_cond _ self)) with (set_cond cs self).
      replace (a + S k)%nat with (S a + k)%nat by lia. rewrite <- IH by lia.
      do 2 f_equal. apply list_eq. intros c. destruct (decide (c = a)) as [->|Hne].
      + rewrite list_lookup_insert_eq by (rewrite length_imap; lia).
        rewrite list_lookup_imap, Hd. cbn [fmap option_fmap option_map]. unfold f.
        rewrite Nat.ltb_irrefl.
        assert ((a <? S a)%nat = true) as -> by (apply Nat.ltb_lt; lia). reflexivity.
      + rewrite list_lookup_insert_ne by auto. rewrite !list_lookup_imap.
        destruct (cond self !! c); [|reflexivity]. cbn [fmap option_fmap option_map].
        unfold f.
        destruct (Nat.ltb_spec c a), (Nat.ltb_spec c (S a)); try reflexivity; lia. }
  specialize (Hloop (length (cond self)) 0%nat eq_refl). cbn [Nat.add] in Hloop.
  assert (imap (f 0%nat) (cond self) = cond self) as E0.
  { apply list_eq. intros c. rewrite list_lookup_imap.
    destruct (cond self !! c); reflexivity. }
  assert (imap (f (length (cond self))) (cond self) = imap put (cond self)) as E1.
  { apply list_eq. intros c. rewrite !list_lookup_imap.
    destruct (cond self !! c) eqn:Hc; [|reflexivity]. cbn [fmap option_fmap option_map].
    apply lookup_lt_Some in Hc. unfold f.
    assert ((c <? length (cond self))%nat = true) as -> by (apply Nat.ltb_lt; lia).
    reflexivity. }
  rewrite E0, E1 in Hloop. rewrite <- Hloop. f_equal. destruct self. reflexivity.
Qed.

Lemma bindM_lift_Ok {A B} (r : result A) (a : A) (k : A -> M B) (s : HrfRetrieval) :
  r = Ok a -> bindM (lift r) k s = k a s.
Proof. intros ->. reflexivity. Qed.

Lemma bindM_gets {A B} (f : HrfRetrieval -> A) (k : A -> M B) (s : HrfRetrieval) :
  bindM (gets f) k s = k (f s) s.
Proof. reflexivity. Qed.

Lemma bindM_get_model {B} (T : tensor) (k : tensor -> M B) (s : HrfRetrieval) :
  model s = Some T -> bindM get_model k s = k T s.
Proof. intros H. unfold bindM, get_model. rewrite H. reflexivity. Qed.

Variable pinv : matrix -> option matrix.

(** The FIR path when each of its steps succeeds. *)
Lemma FIR_path_eq (self : HrfRetrieval) (T : tensor) (design P : matrix)
    (beta : ndarray) :
  model self = Some T -> fir_design T = Ok design -> pinv design = Some P ->
  dot_nd P (T_ (tc self)) = Ok beta -> length (cond self) = nconds self ->
  estimateHRF pinv "FIR" self =
  (Ok tt,
   set_cond
     (imap (fun c =>
              put_FIR_hrf
                (T_ (slice_nd beta (Z.to_nat (Z.of_nat c * nHEst self))
                              (Z.to_nat (Z.of_nat c * nHEst self + nHEst self)))))
           (cond self))
     (set_metric (Some "FIR"%string) self)).
Proof.
  intros HT Hdesign HP Hbeta Hlen. rewrite estimateHRF_unfold.
  change (String.eqb "FIR" "FIR") with true. cbv iota.
  rewrite (bindM_get_model T) by exact HT.
  rewrite (bindM_lift_Ok _ design) by exact Hdesign.
  rewrite (bindM_lift_Ok _ P) by (unfold call_pinv; rewrite HP; reflexivity).
  rewrite bindM_gets.
  rewrite (bindM_lift_Ok _ beta) by exact Hbeta.
  rewrite !bindM_gets.
  change (nconds (set_metric _ self)) with (nconds self).
  change (nHEst (set_metric _ self)) with (nHEst self).
  rewrite <- Hlen.
  change (cond self) with (cond (set_metric (Some "FIR"%string) self)) at 1 2.
  apply mfor_cond_setitem. intros c cs _. reflexivity.
Qed.

End Loops.

Section FIR.

Lemma get_plane_inv (c : nat) (T : tensor) (m : matrix) (n0 n1 n2 : nat) :
  shape T = (n0, n1, n2) -> get_plane c T = Ok m ->
  (c < n2)%nat /\ m = mbuild n0 n1 (fun t k => tcell T t k c).
Proof.
  intros Hs. unfold get_plane. rewrite Hs.
  destruct (Nat.ltb_spec c n2); [|discriminate]. intros [= <-]. auto.
Qed.

Lemma fmap_lookup_seq_id {A} (x : A) (l : list A) :
  map (fun i => default x (l !! i)) (seq 0 (length l)) = l.
Proof.
  apply list_eq. intros i. rewrite list_lookup_fmap.
  destruct (l !! i) as [y|] eqn:Hi.
  - rewrite lookup_seq_lt by (eapply lookup_lt_Some; eauto). cbn. rewrite Hi. reflexivity.
  - rewrite lookup_seq_ge by (apply lookup_ge_None; exact Hi). reflexivity.
Qed.

Lemma dot_nd_rows_full (p : matrix) (a beta : ndarray) :
  dot_nd p a = Ok beta -> rows_full beta.
Proof.
  destruct a as [v|m]; cbn [dot_nd].
  - destruct (dot_mv p v); cbn; [intros [= <-]; exact I|discriminate].
  - unfold dot_mm. destruct (ncols p =? nrows m)%nat; cbn; [|discriminate].
    intros [= <-]. cbn. apply Forall_fmap, Forall_forall. intros r _. cbn.
    rewrite length_fmap, length_seq. reflexivity.
Qed.

Lemma length_dot_nd (p : matrix) (a beta : ndarray) :
  dot_nd p a = Ok beta ->
  match beta with Arr1 b => length b | Arr2 B => length (rows B) end
  = length (rows p).
Proof.
  destruct a as [v|m]; cbn [dot_nd].
  - unfold dot_mv. destruct (ncols p =? length v)%nat; cbn; [|discriminate].
    intros [= <-]. apply length_fmap.
  - unfold dot_mm. destruct (ncols p =? nrows m)%nat; cbn; [|discriminate].
    intros [= <-]. cbn. apply length_fmap.
Qed.

(** Lag [k] of the transposed slice that starts at row [st] is row
    [st + k] of the coefficients. *)
Lemma lag_slice (beta : ndarray) (st n k : nat) (r : list npfloat) :
  rows_full beta -> (k < n)%nat -> Spec.row beta (st + k) = Some r ->
  Spec.lag (T_ (slice_nd beta st (st + n))) k = Some r.
Proof.
  intros Hfull Hk Hr.
  destruct beta as [b|B];
    cbn [Spec.lag Spec.row T_ slice_nd rows_full transpose ncols nrows rows] in *.
  - unfold slice. replace (st + n - st)%nat with n by lia.
    rewrite lookup_take_lt, lookup_drop by exact Hk. exact Hr.
  - unfold slice. replace (st + n - st)%nat with n by lia.
    rewrite length_take, length_drop.
    apply lookup_lt_Some in Hr as Hlt.
    destruct (Nat.ltb_spec k (n `min` (length (rows B) - (st)))); [|lia].
    f_equal. unfold col, transpose. cbn [rows ncols nrows].
    rewrite <- list_fmap_compose.
    rewrite Forall_forall in Hfull.
    etransitivity; [|apply (fmap_lookup_seq_id (Fin 0) r)].
    rewrite (Hfull r) by (apply list_elem_of_lookup; eauto).
    apply list_fmap_ext. intros i vox _. cbn.
    rewrite list_lookup_fmap, lookup_take_lt, lookup_drop, Hr by exact Hk. reflexivity.
Qed.

Lemma cond_lt_nconds (self : HrfRetrieval) (T : tensor) (c : nat) (d : cond_dict) :
  model_built self T -> cond self !! c = Some d -> (c < nconds self)%nat.
Proof.
  intros (_ & _ & _ & Hlen & _) Hc. apply lookup_lt_Some in Hc. lia.
Qed.

Lemma column_index (n c k : nat) :
  (k < n)%nat -> ((c * n + k) mod n = k /\ (c * n + k) / n = c)%nat.
Proof.
  intros Hk. split.
  - rewrite Nat.add_comm, Nat.Div0.mod_add. apply Nat.mod_small, Hk.
  - rewrite Nat.add_comm, Nat.div_add by lia. rewrite Nat.div_small by exact Hk. lia.
Qed.

End FIR.

(** C2: with the design matrices built and at least one time point,
    [estimateHRF('FIR')] forms the
    design of shape (ntps x (nHEst*nconds + 1)) whose column
    [c*nHEst + k] is column [k] of condition [c]'s matrix minus its mean
    over time and whose last column is all ones; given the pseudo-inverse
    [P] of this design, it computes [beta = P . tc^T] and stores for every
    condition [c] the transposed rows [c*nHEst .. (c+1)*nHEst - 1] of
    [beta]: lag [k] of the estimate is row [c*nHEst + k] of [beta], never
    the intercept row [nHEst*nconds]. *)
Theorem C2_FIR_estimate (pinv : matrix -> option matrix) (self : HrfRetrieval)
    (T : tensor) :
  model_built self T -> (0 < ntps self)%nat -> shape_last (tc self) = ntps self ->
  let nH := Z.to_nat (nHEst self) in
  exists design,
    fir_design T = Ok design /\
    nrows design = ntps self /\ ncols design = (nH * nconds self + 1)%nat /\
    (forall c d m t k x,
       cond self !! c = Some d -> model_ d = Some m ->
       (t < ntps self)%nat -> (k < nH)%nat -> cell m t k = Some x ->
       cell design t (c * nH + k) =
       Some (fsub x (fdiv (fsum (col k m))
                          (Fin (inject_Z (Z.of_nat (ntps self))))))) /\
    (forall t, (t < ntps self)%nat ->
       cell design t (nH * nconds self) = Some (Fin 1)) /\
    forall P,
      pinv design = Some P -> ncols P = ntps self ->
      length (rows P) = (nH * nconds self + 1)%nat ->
      exists beta self',
        dot_nd P (T_ (tc self)) = Ok beta /\
        estimateHRF pinv "FIR" self = (Ok tt, self') /\
        forall c d, cond self !! c = Some d ->
          exists d',
            cond self' !! c = Some d' /\
            FIR_hrf d' = Some (T_ (slice_nd beta (c * nH) (c * nH + nH))) /\
            forall k, (k < nH)%nat ->
              (c * nH + k < nH * nconds self)%nat /\
              exists r, Spec.row beta (c * nH + k) = Some r /\
                match FIR_hrf d' with
                | Some est => Spec.lag est k = Some r
                | None => False
                end.
Proof.
  intros Hb Hntps Htc nH.
  pose proof Hb as (HT & Hs & HnH & Hlen & Hplanes).
  pose proof (fir_design_eq T _ _ _ Hs Hntps) as Hdesign. fold nH in Hdesign, Hs.
  eexists. split; [exact Hdesign|]. split; [reflexivity|].
  split; [cbn [ncols mbuild]; lia|].
  split; [|split].
  - intros c d m t k x Hc Hm Ht Hk Hx.
    destruct (Hplanes c d Hc) as (m' & Hm' & Hplane).
    rewrite Hm in Hm'. injection Hm' as <-.
    destruct (get_plane_inv c T m _ _ _ Hs Hplane) as [Hcn ->].
    rewrite cell_mbuild in Hx by assumption. injection Hx as <-.
    rewrite col_mbuild by exact Hk.
    destruct (column_index nH c k Hk) as [Emod Ediv].
    rewrite cell_mbuild by nia.
    assert ((c * nH + k <? nH * nconds self)%nat = true) as ->
      by (apply Nat.ltb_lt; nia).
    unfold column_mean. rewrite Emod, Ediv. reflexivity.
  - intros t Ht. rewrite cell_mbuild by lia. rewrite Nat.ltb_irrefl. reflexivity.
  - intros P HP HPc HPr.
    assert (exists beta, dot_nd P (T_ (tc self)) = Ok beta) as [beta Hbeta].
    { destruct (tc self) as [v|a]; cbn [T_ dot_nd shape_last] in *.
      - unfold dot_mv. rewrite HPc, Htc, Nat.eqb_refl. cbn. eauto.
      - unfold dot_mm. cbn [transpose nrows]. rewrite HPc, Htc, Nat.eqb_refl. cbn. eauto. }
    exists beta. eexists. split; [exact Hbeta|].
    split; [apply (FIR_path_eq pinv self T _ P beta HT Hdesign HP Hbeta Hlen)|].
    intros c d Hc. pose proof (cond_lt_nconds self T c d Hb Hc) as Hcn.
    assert (Z.to_nat (Z.of_nat c * nHEst self) = (c * nH)%nat) as E1.
    { unfold nH. rewrite Z2Nat.inj_mul, Nat2Z.id by lia. reflexivity. }
    assert (Z.to_nat (Z.of_nat c * nHEst self + nHEst self) = (c * nH + nH)%nat) as E2.
    { unfold nH. rewrite Z2Nat.inj_add, Z2Nat.inj_mul, Nat2Z.id by lia. reflexivity. }
    eexists. split.
    { change (cond (set_cond ?cs _)) with cs.
      rewrite list_lookup_imap.
      change (cond (set_metric _ self)) with (cond self). rewrite Hc. reflexivity. }
    cbn [FIR_hrf put_FIR_hrf]. rewrite E1, E2. split; [reflexivity|].
    intros k Hk. split; [nia|].
    pose proof (length_dot_nd _ _ _ Hbeta) as Hlb. rewrite HPr in Hlb.
    assert (exists r, Spec.row beta (c * nH + k) = Some r) as [r Hr].
    { destruct beta as [b|B]; cbn [Spec.row].
      - destruct (lookup_lt_is_Some_2 b (c * nH + k)) as [x Hx]; [nia|].
        rewrite Hx. cbn. eauto.
      - apply lookup_lt_is_Some_2. nia. }
    exists r. split; [exact Hr|].
    apply lag_slice; [eapply dot_nd_rows_full; eauto|exact Hk|exact Hr].
Qed.

Section Average.

(** Selecting with a mask computed from [l], among values computed from
    the positions of [l]. *)
Lemma compress_fmap_seq {A B} (p : A -> bool) (f : nat -> B) (l : list A) :
  compress (map p l) (map f (seq 0 (length l))) =
  map f (List.filter (fun j => from_option p false (l !! j)) (seq 0 (length l))).
Proof.
  assert (forall a (pre : list A), length pre = a ->
            compress (map p l) (map f (seq a (length l))) =
            map f (List.filter (fun j => from_option p false ((pre ++ l) !! j))
                     (seq a (length l)))) as H.
  { induction l as [|x l IH]; intros a pre Ha; [reflexivity|].
    cbn [length seq fmap list_fmap compress List.filter].
    rewrite lookup_app_r, <- Ha, Nat.sub_diag by lia. cbn [lookup list_lookup from_option].
    specialize (IH (S (length pre)) (pre ++ [x])).
    rewrite <- app_assoc in IH. cbn [app] in IH.
    rewrite IH by (rewrite length_app; cbn; lia).
    destruct (p x); reflexivity. }
  apply (H 0%nat []). reflexivity.
Qed.

Lemma mean_hrf_list (v : list npfloat) (m : matrix) :
  zip_with fdiv (map (fun k => inner v (col k m)) (seq 0 (ncols m))) (sum_axis0 m) =
  map (Spec.mean_hrf v m) (seq 0 (ncols m)).
Proof. unfold sum_axis0. rewrite zip_with_fmap_same. reflexivity. Qed.

(** Lines 203-209 for a 1-D timecourse. *)
Lemma average_of_1d (v : list npfloat) (tscale : list Q) (m : matrix) :
  length v = nrows m -> length tscale = ncols m ->
  average_of (Arr1 v) (map (fun x => Py.lt x 0) tscale) m =
  Ok (Arr1 (map (fun k => fsub (Spec.mean_hrf v m k) (Spec.baseline tscale v m))
                (seq 0 (ncols m)))).
Proof.
  intros Hv Hts. unfold average_of, dot_vm. rewrite Hv, Nat.eqb_refl. cbn [rbind].
  rewrite mean_hrf_list. unfold getmask.
  rewrite !length_fmap, length_seq, Hts, Nat.eqb_refl. cbn [rbind].
  rewrite <- Hts, compress_fmap_seq. rewrite <- list_fmap_compose. reflexivity.
Qed.

(** Lines 203-209 for a 2-D timecourse: the same, voxel by voxel. *)
Lemma average_of_2d (a : matrix) (tscale : list Q) (m : matrix) :
  ncols a = nrows m -> length tscale = ncols m ->
  average_of (Arr2 a) (map (fun x => Py.lt x 0) tscale) m =
  Ok (Arr2 {| nrows := nrows a; ncols := ncols m;
              rows := map (fun row =>
                             map (fun k => fsub (Spec.mean_hrf row m k)
                                                (Spec.baseline tscale row m))
                                 (seq 0 (ncols m)))
                          (rows a) |}).
Proof.
  intros Ha Hts. unfold average_of, dot_mm. rewrite Ha, Nat.eqb_refl.
  cbn [rbind nrows ncols rows].
  rewrite length_fmap, Hts, Nat.eqb_refl. cbn [rbind]. do 3 f_equal.
  rewrite <- !list_fmap_compose. rewrite zip_with_fmap_same.
  apply list_fmap_ext. intros i row _. cbn.
  rewrite mean_hrf_list. rewrite <- Hts, compress_fmap_seq.
  rewrite <- list_fmap_compose. reflexivity.
Qed.

Lemma get_plane_eq (c : nat) (T : tensor) (n0 n1 n2 : nat) :
  shape T = (n0, n1, n2) -> (c < n2)%nat ->
  get_plane c T = Ok (mbuild n0 n1 (fun t k => tcell T t k c)).
Proof.
  intros Hs Hc. unfold get_plane. rewrite Hs.
  apply Nat.ltb_lt in Hc as ->. reflexivity.
Qed.

Variable pinv : matrix -> option matrix.

(** The averaging path when each of its steps succeeds. *)
Lemma average_path_eq (self : HrfRetrieval) (T : tensor) (avg : nat -> ndarray) :
  model self = Some T -> length (cond self) = nconds self ->
  (forall c, (c < nconds self)%nat ->
     exists m, get_plane c T = Ok m /\
       average_of (tc self) (map (fun x => Py.lt x 0) (tscale self)) m = Ok (avg c)) ->
  estimateHRF pinv "average" self =
  (Ok tt,
   set_cond (imap (fun c => put_average_hrf (avg c)) (cond self))
            (set_metric (Some "average"%string) self)).
Proof.
  intros HT Hlen Havg. rewrite estimateHRF_unfold.
  change (String.eqb "average" "FIR") with false.
  change (String.eqb "average" "average") with true. cbv iota.
  rewrite !bindM_gets.
  change (nconds (set_metric _ self)) with (nconds self).
  change (tscale (set_metric _ self)) with (tscale self).
  rewrite <- Hlen.
  change (cond self) with (cond (set_metric (Some "average"%string) self)) at 1 2.
  apply mfor_cond_setitem. intros c cs Hc.
  change (cond (set_metric _ self)) with (cond self) in Hc.
  destruct (Havg c) as (m & Hm & Ha); [lia|].
  rewrite (bindM_get_model T) by exact HT.
  rewrite (bindM_lift_Ok _ m) by exact Hm.
  rewrite bindM_gets.
  rewrite (bindM_lift_Ok _ (avg c)) by exact Ha. reflexivity.
Qed.

End Average.

Section AverageEstimate.

Variable pinv : matrix -> option matrix.

Lemma estimateHRF_average_eq (self : HrfRetrieval) (T : tensor) :
  model_built self T -> shape_last (tc self) = ntps self ->
  length (tscale self) = Z.to_nat (nHEst self) ->
  estimateHRF pinv "average" self =
  (Ok tt,
   set_cond
     (imap (fun c =>
              put_average_hrf
                (average_estimate (tc self) (tscale self)
                   (mbuild (ntps self) (Z.to_nat (nHEst self))
                           (fun t k => tcell T t k c))))
           (cond self))
     (set_metric (Some "average"%string) self)).
Proof.
  intros (HT & Hs & HnH & Hlen & Hplanes) Htc Hts.
  apply (average_path_eq pinv self T _ HT Hlen).
  intros c Hc. eexists. split; [apply (get_plane_eq c T _ _ _ Hs Hc)|].
  destruct (tc self) as [v|a]; cbn [average_estimate shape_last] in *.
  - apply average_of_1d; [exact Htc|exact Hts].
  - apply average_of_2d; [exact Htc|exact Hts].
Qed.

End AverageEstimate.

(** C3: with the design matrices built, [estimateHRF('average')] stores
    for every condition the estimate [mean_hrf - baseline], where
    [mean_hrf] at lag [k] is the dot product of the timecourse with column
    [k] of the condition's matrix divided by the sum of that column, and
    the baseline is the mean of [mean_hrf] over exactly the lags with
    [tscale < 0]: one scalar for a 1-D timecourse, one per voxel,
    subtracted from every lag of that voxel, for a 2-D timecourse. *)
Theorem C3_average_estimate (pinv : matrix -> option matrix)
    (self : HrfRetrieval) (T : tensor) :
  model_built self T -> shape_last (tc self) = ntps self ->
  length (tscale self) = Z.to_nat (nHEst self) ->
  let nH := Z.to_nat (nHEst self) in
  exists self',
    estimateHRF pinv "average" self = (Ok tt, self') /\
    forall c d m, cond self !! c = Some d -> model_ d = Some m ->
      exists d' est,
        cond self' !! c = Some d' /\ average_hrf d' = Some est /\
        match tc self, est with
        | Arr1 v, Arr1 e =>
            length e = nH /\
            forall k, (k < nH)%nat ->
              e !! k = Some (fsub (Spec.mean_hrf v m k)
                                  (Spec.baseline (tscale self) v m))
        | Arr2 a, Arr2 e =>
            nrows e = nrows a /\ ncols e = nH /\
            length (rows e) = length (rows a) /\
            forall vox row k, rows a !! vox = Some row -> (k < nH)%nat ->
              cell e vox k = Some (fsub (Spec.mean_hrf row m k)
                                        (Spec.baseline (tscale self) row m))
        | _, _ => False
        end.
Proof.
  intros Hb Htc Hts nH. eexists.
  split; [apply (estimateHRF_average_eq pinv self T Hb Htc Hts)|].
  destruct Hb as (HT & Hs & HnH & Hlen & Hplanes).
  intros c d m Hc Hm.
  destruct (Hplanes c d Hc) as (m' & Hm' & Hplane).
  rewrite Hm in Hm'. injection Hm' as <-.
  destruct (get_plane_inv c T m _ _ _ Hs Hplane) as [Hcn Em].
  eexists _, _. split.
  { change (cond (set_cond ?cs _)) with cs. rewrite list_lookup_imap.
    change (cond (set_metric _ self)) with (cond self). rewrite Hc. reflexivity. }
  split; [reflexivity|]. rewrite <- Em. fold nH in Em.
  assert (ncols m = nH) as Hnc by (rewrite Em; reflexivity).
  destruct (tc self) as [v|a]; cbn [average_estimate].
  - rewrite Hnc. split; [rewrite length_fmap, length_seq; reflexivity|].
    intros k Hk. rewrite list_lookup_fmap, lookup_seq_lt by exact Hk. reflexivity.
  - cbn [nrows ncols rows]. split; [reflexivity|]. split; [exact Hnc|].
    split; [apply length_fmap|].
    intros vox row k Hrow Hk. unfold cell. cbn [rows].
    rewrite list_lookup_fmap, Hrow. cbn.
    rewrite list_lookup_fmap, Hnc, lookup_seq_lt by exact Hk. reflexivity.
Qed.

Section NotANumber.

Lemma fadd_nan_r (x : npfloat) : fadd x NaN = NaN.
Proof. destruct x; reflexivity. Qed.

Lemma fsub_nan_l (y : npfloat) : fsub NaN y = NaN.
Proof. reflexivity. Qed.

Lemma fsub_nan_r (x : npfloat) : fsub x NaN = NaN.
Proof. destruct x; reflexivity. Qed.

Lemma fsum_nan (l : list npfloat) : NaN ∈ l -> fsum l = NaN.
Proof.
  induction l as [|x l IH]; [intros H; inversion H|].
  intros [<-|Hin]%elem_of_cons; cbn; [reflexivity|].
  unfold fsum in IH. rewrite IH by exact Hin. apply fadd_nan_r.
Qed.

Lemma mean_nan (l : list npfloat) : NaN ∈ l -> mean l = NaN.
Proof. intros H. unfold mean. rewrite fsum_nan by exact H. reflexivity. Qed.

Lemma zero_or_nan_fadd (x y : npfloat) :
  zero_or_nan x -> zero_or_nan y -> zero_or_nan (fadd x y).
Proof.
  intros [->|(a & -> & Ha)] [->|(b & -> & Hb)]; try (left; reflexivity).
  right. exists (a + b). split; [reflexivity|]. rewrite Ha, Hb. reflexivity.
Qed.

Lemma zero_or_nan_fmul_zero (x : npfloat) : zero_or_nan (fmul x (Fin 0)).
Proof.
  destruct x as [a| | |]; cbn; try (left; reflexivity).
  right. exists (a * 0). split; [reflexivity|]. ring.
Qed.

(** The dot product with an all-zero column is zero, or not-a-number when
    the timecourse holds an infinity or a not-a-number. *)
Lemma zero_or_nan_inner (v zs : list npfloat) :
  Forall (fun z => z = Fin 0) zs -> zero_or_nan (inner v zs).
Proof.
  unfold inner. intros Hz. revert v.
  induction Hz as [|z zs -> _ IH]; intros [|x v]; cbn;
    try (right; exists 0; split; reflexivity).
  apply zero_or_nan_fadd; [apply zero_or_nan_fmul_zero|apply IH].
Qed.

Lemma fdiv_zero_zero (x : npfloat) (q : Q) :
  zero_or_nan x -> q == 0 -> fdiv x (Fin q) = NaN.
Proof.
  intros [->|(a & -> & Ha)] Hq; [reflexivity|]. cbn.
  apply Qeq_bool_true_iff in Ha, Hq. rewrite Ha, Hq. reflexivity.
Qed.

(** A 0/1 column that sums to zero is all zeros. *)
Lemma binary_sum_zero (l : list npfloat) (q : Q) :
  Forall (fun x => x = Fin 0 \/ x = Fin 1) l -> fsum l = Fin q -> q == 0 ->
  Forall (fun x => x = Fin 0) l.
Proof.
  intros Hbin.
  revert q. induction Hbin as [|x l Hx Hbin IH]; intros q Hq H0; [constructor|].
  assert (exists q', fsum l = Fin q' /\ 0 <= q') as (q' & Hq' & Hpos).
  { clear -Hbin. induction Hbin as [|x l Hx _ (q' & Hq' & Hpos)];
      [exists 0; split; [reflexivity|lra]|].
    cbn. unfold fsum in Hq'. rewrite Hq'.
    destruct Hx as [->| ->]; cbn; eexists; (split; [reflexivity|lra]). }
  cbn in Hq. unfold fsum in Hq'. rewrite Hq' in Hq.
  destruct Hx as [->| ->]; cbn in Hq; injection Hq as <-.
  - constructor; [reflexivity|]. apply (IH q'); [exact Hq'|lra].
  - lra.
Qed.

(** The mean response at a lag whose 0/1 column sums to zero is
    not-a-number. *)
Lemma mean_hrf_nan (v : list npfloat) (m : matrix) (k : nat) (q : Q) :
  Forall (fun x => x = Fin 0 \/ x = Fin 1) (col k m) ->
  fsum (col k m) = Fin q -> q == 0 ->
  Spec.mean_hrf v m k = NaN.
Proof.
  intros Hbin Hsum Hq. unfold Spec.mean_hrf. rewrite Hsum.
  apply fdiv_zero_zero; [|exact Hq].
  apply zero_or_nan_inner. eapply binary_sum_zero; eauto.
Qed.

Lemma elem_of_prestim (tscale : list Q) (k : nat) (x : Q) :
  tscale !! k = Some x -> x < 0 -> In k (Spec.prestim tscale).
Proof.
  intros Hk Hx. unfold Spec.prestim. apply filter_In. split.
  - apply in_seq. apply lookup_lt_Some in Hk. lia.
  - rewrite Hk. cbn. apply lt_true_iff. exact Hx.
Qed.

Lemma baseline_nan (tscale : list Q) (v : list npfloat) (m : matrix) (k : nat) (x : Q) :
  tscale !! k = Some x -> x < 0 -> Spec.mean_hrf v m k = NaN ->
  Spec.baseline tscale v m = NaN.
Proof.
  intros Hk Hx Hnan. unfold Spec.baseline. apply mean_nan.
  rewrite <- Hnan. apply list_elem_of_fmap. exists k. split; [reflexivity|].
  apply list_elem_of_In. eapply elem_of_prestim; eauto.
Qed.

(** Lag [k] of the averaged estimate, voxel by voxel. *)
Lemma lag_average_estimate (tc : ndarray) (tscale : list Q) (m : matrix) (k : nat) :
  (k < ncols m)%nat ->
  Spec.lag (average_estimate tc tscale m) k =
  Some (map (fun v => fsub (Spec.mean_hrf v m k) (Spec.baseline tscale v m))
            (match tc with Arr1 v => [v] | Arr2 a => rows a end)).
Proof.
  intros Hk. destruct tc as [v|a]; cbn [average_estimate Spec.lag ncols].
  - rewrite list_lookup_fmap, lookup_seq_lt by exact Hk. reflexivity.
  - apply Nat.ltb_lt in Hk as Hk'. rewrite Hk'. f_equal.
    unfold col. cbn [rows]. rewrite <- list_fmap_compose.
    apply list_fmap_ext. intros i row _. cbn.
    rewrite list_lookup_fmap, lookup_seq_lt by exact Hk. reflexivity.
Qed.

End NotANumber.

Section Pipeline.




Lemma col_binary (m : matrix) (n0 n1 k : nat) (g : nat -> nat -> npfloat) :
  m = mbuild n0 n1 g -> (k < n1)%nat ->
  (forall t x, cell m t k = Some x -> x = Fin 0 \/ x = Fin 1) ->
  Forall (fun x => x = Fin 0 \/ x = Fin 1) (col k m).
Proof.
  intros -> Hk Hcell. rewrite col_mbuild by exact Hk.
  apply Forall_fmap, Forall_forall. intros t Ht%elem_of_seq. cbn.
  apply (Hcell t). apply cell_mbuild; lia.
Qed.

End Pipeline.

(** C10: in [estimateHRF('average')] the division by the column sums is
    unguarded.  With the design matrices built the call returns without an
    error; at a lag whose 0/1 column sums to zero the stored estimate is
    not-a-number for every voxel; and when that lag has [tscale < 0] the
    baseline is not-a-number too, so that every lag of the estimate is. *)
Theorem C10_zero_column_gives_nan (pinv : matrix -> option matrix)
    (self : HrfRetrieval) (T : tensor) :
  model_built self T -> shape_last (tc self) = ntps self ->
  length (tscale self) = Z.to_nat (nHEst self) ->
  let nH := Z.to_nat (nHEst self) in
  exists self',
    estimateHRF pinv "average" self = (Ok tt, self') /\
    forall c d m k q,
      cond self !! c = Some d -> model_ d = Some m -> (k < nH)%nat ->
      (forall t x, cell m t k = Some x -> x = Fin 0 \/ x = Fin 1) ->
      fsum (col k m) = Fin q -> q == 0 ->
      exists d' est,
        cond self' !! c = Some d' /\ average_hrf d' = Some est /\
        (exists r, Spec.lag est k = Some r /\ Forall (fun x => x = NaN) r) /\
        (forall x, tscale self !! k = Some x -> x < 0 ->
           forall k', (k' < nH)%nat ->
             exists r, Spec.lag est k' = Some r /\ Forall (fun x => x = NaN) r).
Proof.
  intros Hb Htc Hts nH. eexists.
  split; [apply (estimateHRF_average_eq pinv self T Hb Htc Hts)|].
  destruct Hb as (HT & Hs & HnH & Hlen & Hplanes).
  intros c d m k q Hc Hm Hk Hcell Hsum Hq.
  destruct (Hplanes c d Hc) as (m' & Hm' & Hplane).
  rewrite Hm in Hm'. injection Hm' as <-.
  destruct (get_plane_inv c T m _ _ _ Hs Hplane) as [Hcn Em].
  assert (ncols m = nH) as Hnc by (rewrite Em; reflexivity).
  pose proof (col_binary m _ _ k _ Em Hk Hcell) as Hbin.
  assert (forall v, Spec.mean_hrf v m k = NaN) as Hnan
    by (intros v; eapply mean_hrf_nan; eauto).
  eexists _, _. split.
  { change (cond (set_cond ?cs _)) with cs. rewrite list_lookup_imap.
    change (cond (set_metric _ self)) with (cond self). rewrite Hc. reflexivity. }
  split; [reflexivity|]. rewrite <- Em. split.
  - eexists. split; [apply lag_average_estimate; lia|].
    apply Forall_fmap, Forall_forall. intros v _. cbn. rewrite Hnan. reflexivity.
  - intros x Hx Hneg k' Hk'.
    eexists. split; [apply lag_average_estimate; lia|].
    apply Forall_fmap, Forall_forall. intros v _. cbn.
    rewrite (baseline_nan _ v m k x Hx Hneg (Hnan v)). apply fsub_nan_r.
Qed.

(* ================================================================== *)
(** * The runs of [Example] *)
(* ================================================================== *)

Section Runs.

Lemma model_built_obj1 : model_built Example.obj1 Example.T1.
Proof.
  split; [reflexivity|]. split; [reflexivity|]. split; [cbn; lia|].
  split; [reflexivity|].
  intros [|[|c]] d; cbn; intros [= <-]; eexists; split; reflexivity.
Qed.

Lemma model_built_obj3 : model_built Example.obj3 Example.T3.
Proof.
  split; [reflexivity|]. split; [reflexivity|]. split; [cbn; lia|].
  split; [reflexivity|].
  intros [|c] d; cbn; intros [= <-]; eexists; split; reflexivity.
Qed.

(** [obj1] and [obj3] are what the constructor and [getFIRmodel] give. *)
Lemma obj1_run :
  init Example.tsData Example.table 2 None [-4; 2] = Ok (Example.obj0, []) /\
  getFIRmodel Example.obj0 = (Ok tt, Example.obj1).
Proof. split; reflexivity. Qed.

Lemma obj3_run :
  init Example.tsData2 Example.table2 2 None [0; 2] = Ok (Example.obj2, []) /\
  getFIRmodel Example.obj2 = (Ok tt, Example.obj3).
Proof. split; reflexivity. Qed.

(** [P3] is the inverse of the design of the second run. *)
Lemma P3_inverse :
  exists design M,
    fir_design Example.T3 = Ok design /\ dot_mm design Example.P3 = Ok M /\
    Example.mat_eqb M {| nrows := 2; ncols := 2;
                 rows := [[Fin 1; Fin 0]; [Fin 0; Fin 1]] |} = true.
Proof. eexists _, _. split; [reflexivity|]. split; reflexivity. Qed.

(** The FIR estimate of the second run: the single lag is 3 - 1 = 2. *)
Lemma FIR_run :
  let out := estimateHRF Example.pinv3 "FIR" Example.obj3 in
  out.1 = Ok tt /\
  match cond out.2 !! 0%nat ≫= FIR_hrf with
  | Some (Arr1 [x]) => feqb x (Fin 2)
  | _ => false
  end = true.
Proof. vm_compute. split; reflexivity. Qed.

(** The averages of the first run: 0, 1, 2 for condition 1 and
    not-a-number at every lag for condition 7, whose first lag is never
    matched and lies before the onset. *)
Lemma average_run :
  let out := estimateHRF (fun _ => None) "average" Example.obj1 in
  out.1 = Ok tt /\
  match cond out.2 !! 0%nat ≫= average_hrf with
  | Some (Arr1 v) =>
      forallb (fun xy => feqb xy.1 xy.2) (zip v [Fin 0; Fin 1; Fin 2])
  | _ => false
  end = true /\
  cond out.2 !! 1%nat ≫= average_hrf = Some (Arr1 [NaN; NaN; NaN]).
Proof. vm_compute. repeat split; reflexivity. Qed.

End Runs.

Lemma C2_FIR_estimate_witness :
  model_built Example.obj3 Example.T3 /\ (0 < ntps Example.obj3)%nat /\
  shape_last (tc Example.obj3) = ntps Example.obj3 /\
  let self := Example.obj3 in
  let nH := Z.to_nat (nHEst self) in
  exists design,
    fir_design Example.T3 = Ok design /\
    nrows design = ntps self /\ ncols design = (nH * nconds self + 1)%nat /\
    (forall c d m t k x,
       cond self !! c = Some d -> model_ d = Some m ->
       (t < ntps self)%nat -> (k < nH)%nat -> cell m t k = Some x ->
       cell design t (c * nH + k) =
       Some (fsub x (fdiv (fsum (col k m))
                          (Fin (inject_Z (Z.of_nat (ntps self))))))) /\
    (forall t, (t < ntps self)%nat ->
       cell design t (nH * nconds self) = Some (Fin 1)) /\
    forall P,
      Example.pinv3 design = Some P -> ncols P = ntps self ->
      length (rows P) = (nH * nconds self + 1)%nat ->
      exists beta self',
        dot_nd P (T_ (tc self)) = Ok beta /\
        estimateHRF Example.pinv3 "FIR" self = (Ok tt, self') /\
        forall c d, cond self !! c = Some d ->
          exists d',
            cond self' !! c = Some d' /\
            FIR_hrf d' = Some (T_ (slice_nd beta (c * nH) (c * nH + nH))) /\
            forall k, (k < nH)%nat ->
              (c * nH + k < nH * nconds self)%nat /\
              exists r, Spec.row beta (c * nH + k) = Some r /\
                match FIR_hrf d' with
                | Some est => Spec.lag est k = Some r
                | None => False
                end.
Proof.
  split; [exact model_built_obj3|]. split; [cbn; lia|]. split; [reflexivity|].
  apply (C2_FIR_estimate Example.pinv3 Example.obj3 Example.T3).
  - exact model_built_obj3.
  - cbn; lia.
  - reflexivity.
Defined.

Lemma C3_average_estimate_witness :
  model_built Example.obj1 Example.T1 /\
  shape_last (tc Example.obj1) = ntps Example.obj1 /\
  length (tscale Example.obj1) = Z.to_nat (nHEst Example.obj1) /\
  let self := Example.obj1 in
  let nH := Z.to_nat (nHEst self) in
  exists self',
    estimateHRF (fun _ => None) "average" self = (Ok tt, self') /\
    forall c d m, cond self !! c = Some d -> model_ d = Some m ->
      exists d' est,
        cond self' !! c = Some d' /\ average_hrf d' = Some est /\
        match tc self, est with
        | Arr1 v, Arr1 e =>
            length e = nH /\
            forall k, (k < nH)%nat ->
              e !! k = Some (fsub (Spec.mean_hrf v m k)
                                  (Spec.baseline (tscale self) v m))
        | Arr2 a, Arr2 e =>
            nrows e = nrows a /\ ncols e = nH /\
            length (rows e) = length (rows a) /\
            forall vox row k, rows a !! vox = Some row -> (k < nH)%nat ->
              cell e vox k = Some (fsub (Spec.mean_hrf row m k)
                                        (Spec.baseline (tscale self) row m))
        | _, _ => False
        end.
Proof.
  split; [exact model_built_obj1|]. split; [reflexivity|]. split; [reflexivity|].
  apply (C3_average_estimate (fun _ => None) Example.obj1 Example.T1).
  - exact model_built_obj1.
  - reflexivity.
  - reflexivity.
Defined.

Lemma C10_zero_column_gives_nan_witness :
  model_built Example.obj1 Example.T1 /\
  shape_last (tc Example.obj1) = ntps Example.obj1 /\
  length (tscale Example.obj1) = Z.to_nat (nHEst Example.obj1) /\
  let self := Example.obj1 in
  let nH := Z.to_nat (nHEst self) in
  exists self',
    estimateHRF (fun _ => None) "average" self = (Ok tt, self') /\
    forall c d m k q,
      cond self !! c = Some d -> model_ d = Some m -> (k < nH)%nat ->
      (forall t x, cell m t k = Some x -> x = Fin 0 \/ x = Fin 1) ->
      fsum (col k m) = Fin q -> q == 0 ->
      exists d' est,
        cond self' !! c = Some d' /\ average_hrf d' = Some est /\
        (exists r, Spec.lag est k = Some r /\ Forall (fun x => x = NaN) r) /\
        (forall x, tscale self !! k = Some x -> x < 0 ->
           forall k', (k' < nH)%nat ->
             exists r, Spec.lag est k' = Some r /\ Forall (fun x => x = NaN) r).
Proof.
  split; [exact model_built_obj1|]. split; [reflexivity|]. split; [reflexivity|].
  apply (C10_zero_column_gives_nan (fun _ => None) Example.obj1 Example.T1).
  - exact model_built_obj1.
  - reflexivity.
  - reflexivity.
Defined.

(* ================================================================== *)
(** * Further properties of the constructor and the two methods *)
(* ================================================================== *)

Section Resolution.

Lemma truth_mod_false (TR e : Q) :
  truth (mod_ TR e) = false <->
  ~ e == 0 /\ TR == inject_Z (Qfloor (TR / e)) * e.
Proof.
  unfold mod_. destruct (Qeq_bool e 0) eqn:He.
  - cbn. apply Qeq_bool_true_iff in He. split; [discriminate|]. intros [H _]. contradiction.
  - apply Qeq_bool_false_iff in He. cbn. rewrite negb_false_iff, Qeq_bool_true_iff.
    split.
    + intros H. split; [exact He|]. lra.
    + intros [_ H]. lra.
Qed.


End Resolution.


(** X2: for a positive [TR] and a positive [ER] below [2*TR] the resolution
    step does not raise, the final [ER] is positive and [TR] is a positive
    whole multiple of it. *)
Theorem X2_init_ER_divides_TR (TR e : Q) :
  0 < TR -> 0 < e -> e < 2 * TR ->
  exists er out n,
    init_ER TR (Some e) = Ok (er, out) /\ 0 < er /\ (1 <= n)%Z /\
    TR == inject_Z n * er.
Proof.
  intros HTR He He2. unfold init_ER.
  destruct (Qeq_bool e TR) eqn:HeTR.
  { exists TR, [], 1%Z. split; [reflexivity|]. split; [exact HTR|]. split; [lia|]. ring. }
  destruct (truth (mod_ TR e)) eqn:Hmod.
  - rewrite truediv_ok by lra. cbn [rbind].
    assert ((1 # 2) < TR / e) as Hhalf by (apply Qlt_shift_div_l; lra).
    pose proof (round_pos _ Hhalf) as Hr.
    assert (0 < inject_Z (Py.round (TR / e))) as Hr'.
    { change 0 with (inject_Z 0). rewrite <- Zlt_Qlt. lia. }
    rewrite truediv_ok by lra. cbn [rbind].
    eexists _, _, (Py.round (TR / e)). split; [reflexivity|].
    split; [apply Qlt_shift_div_l; lra|]. split; [exact Hr|].
    field. lra.
  - apply truth_mod_false in Hmod as [_ Hmul].
    exists e, [], (Qfloor (TR / e)). split; [reflexivity|]. split; [exact He|].
    split; [|exact Hmul].
    assert (0 < inject_Z (Qfloor (TR / e))) as Hpos by nra.
    change 0 with (inject_Z 0) in Hpos. rewrite <- Zlt_Qlt in Hpos. lia.
Qed.

Lemma X2_init_ER_divides_TR_witness :
  exists er out n,
    init_ER 2 (Some (3 # 2)) = Ok (er, out) /\ 0 < er /\ (1 <= n)%Z /\
    2 == inject_Z n * er.
Proof. apply (X2_init_ER_divides_TR 2 (3 # 2)); reflexivity. Defined.

(** X3: when [TR] is a whole multiple of a non-zero [ER], the resolution
    step keeps [ER] and prints nothing. *)
Theorem X3_init_ER_kept (TR e : Q) (n : Z) :
  ~ e == 0 -> TR == inject_Z n * e ->
  exists er, init_ER TR (Some e) = Ok (er, []) /\ er == e.
Proof.
  intros He Hmul. unfold init_ER.
  destruct (Qeq_bool e TR) eqn:HeTR.
  { apply Qeq_bool_true_iff in HeTR. exists TR. split; [reflexivity|]. symmetry. exact HeTR. }
  assert (truth (mod_ TR e) = false) as ->.
  { apply truth_mod_false. split; [exact He|].
    assert (TR / e == inject_Z n) as Hq by (rewrite Hmul; field; exact He).
    rewrite (Qfloor_comp _ _ Hq), Qfloor_Z. exact Hmul. }
  exists e. split; reflexivity.
Qed.

Lemma X3_init_ER_kept_witness :
  exists er, init_ER 2 (Some (1 # 2)) = Ok (er, []) /\ er == 1 # 2.
Proof.
  apply (X3_init_ER_kept 2 (1 # 2) 4).
  - intros H; discriminate H.
  - reflexivity.
Defined.


(** X5: a constructed object keeps the timecourse and [TR], has [ntps] the
    last dimension of the timecourse, one event timing and number per row
    of the table, as many codes, labels and condition records as
    [nconds], each record holding its label and nothing else, a non-zero
    [ER] and neither [model] nor [metric]. *)
Theorem X5_init_postconditions (tsData : ndarray) (cond : list cond_row)
    (TR : Q) (ER : option Q) (window : list Q) (self : HrfRetrieval)
    (out : list notice) :
  init tsData cond TR ER window = Ok (self, out) ->
  tc self = tsData /\ Hrf.TR self = TR /\ ntps self = shape_last tsData /\
  event_timing self = map f0 cond /\ event_number self = map f1 cond /\
  length (c_codes self) = nconds self /\ length (c_labels self) = nconds self /\
  Hrf.cond self =
    map (fun l => Build_cond_dict l None None None) (c_labels self) /\
  ~ Hrf.ER self == 0 /\ model self = None /\ metric self = None.
Proof.
  intros H. apply init_inv in H as (w0 & w1 & rest & er & _ & Her & Hnz & H).
  destruct (init_eq tsData cond TR ER w0 w1 er out Her Hnz) as (ts & Heq & _).
  rewrite Heq in H. injection H as <-.
  cbn [tc Hrf.TR ntps event_timing event_number c_codes c_labels nconds Hrf.cond
       Hrf.ER model metric].
  rewrite !length_fmap. repeat split; auto.
Qed.

Lemma X5_init_postconditions_witness :
  let self := Example.obj0 in
  tc self = Example.tsData /\ Hrf.TR self = 2 /\
  ntps self = shape_last Example.tsData /\
  event_timing self = map f0 Example.table /\
  event_number self = map f1 Example.table /\
  length (c_codes self) = nconds self /\ length (c_labels self) = nconds self /\
  Hrf.cond self =
    map (fun l => Build_cond_dict l None None None) (c_labels self) /\
  ~ Hrf.ER self == 0 /\ model self = None /\ metric self = None.
Proof.
  apply (X5_init_postconditions Example.tsData Example.table 2 None [-4; 2]
           Example.obj0 []).
  reflexivity.
Defined.

(** X6: on an object without [model], so before [getFIRmodel],
    [estimateHRF('FIR')] raises [AttributeError]; [estimateHRF('average')]
    raises it too when there is a condition, and returns without touching
    a record when there is none.  In each case only [metric] is set. *)
Theorem X6_estimate_before_build (pinv : matrix -> option matrix)
    (self : HrfRetrieval) :
  model self = None ->
  estimateHRF pinv "FIR" self =
    (Raise AttributeError, set_metric (Some "FIR"%string) self) /\
  ((0 < nconds self)%nat ->
     estimateHRF pinv "average" self =
       (Raise AttributeError, set_metric (Some "average"%string) self)) /\
  (nconds self = 0%nat ->
     estimateHRF pinv "average" self =
       (Ok tt, set_metric (Some "average"%string) self)).
Proof.
  intros Hm. split; [|split].
  - rewrite estimateHRF_unfold. change (String.eqb "FIR" "FIR") with true. cbv iota.
    unfold bindM at 1, get_model.
    change (model (set_metric _ self)) with (model self). rewrite Hm. reflexivity.
  - intros Hn. rewrite estimateHRF_unfold.
    change (String.eqb "average" "FIR") with false.
    change (String.eqb "average" "average") with true. cbv iota.
    rewrite !bindM_gets. change (nconds (set_metric _ self)) with (nconds self).
    destruct (nconds self) as [|n]; [lia|]. cbn [seq mfor].
    unfold bindM at 1. unfold bindM at 1, get_model.
    change (model (set_metric _ self)) with (model self). rewrite Hm. reflexivity.
  - intros Hn. rewrite estimateHRF_unfold.
    change (String.eqb "average" "FIR") with false.
    change (String.eqb "average" "average") with true. cbv iota.
    rewrite !bindM_gets. change (nconds (set_metric _ self)) with (nconds self).
    rewrite Hn. reflexivity.
Qed.

Lemma X6_estimate_before_build_witness :
  model Example.obj0 = None /\
  estimateHRF (fun _ => None) "FIR" Example.obj0 =
    (Raise AttributeError, set_metric (Some "FIR"%string) Example.obj0) /\
  ((0 < nconds Example.obj0)%nat ->
     estimateHRF (fun _ => None) "average" Example.obj0 =
       (Raise AttributeError, set_metric (Some "average"%string) Example.obj0)) /\
  (nconds Example.obj0 = 0%nat ->
     estimateHRF (fun _ => None) "average" Example.obj0 =
       (Ok tt, set_metric (Some "average"%string) Example.obj0)).
Proof.
  split; [reflexivity|].
  apply (X6_estimate_before_build (fun _ => None) Example.obj0). reflexivity.
Defined.



(** X8: [getFIRmodel] is idempotent: called again on the object it
    returned, it returns and leaves this object as it is. *)
Theorem X8_getFIRmodel_idempotent (self self' : HrfRetrieval) :
  wf_obj self -> ~ TR self == 0 -> (0 <= nHEst self)%Z ->
  getFIRmodel self = (Ok tt, self') ->
  getFIRmodel self' = (Ok tt, self').
Proof.
  intros Hwf HTR HnH H.
  rewrite (getFIRmodel_eq self Hwf HTR HnH) in H. injection H as <-.
  set (s1 := built_upto self (nconds self)).
  assert (wf_obj s1) as Hwf1.
  { destruct Hwf as (Hcodes & Hcond & Hev). split; [exact Hcodes|]. split; [|exact Hev].
    change (cond s1)
      with (imap (fun c d => if (c <? nconds self)%nat
                             then put_model (design_c self c) d else d) (cond self)).
    rewrite length_imap. exact Hcond. }
  rewrite (getFIRmodel_eq s1 Hwf1 HTR HnH). f_equal.
  change (built_upto s1 (nconds s1))
    with (set_model
            (Some (tbuild (ntps self) (Z.to_nat (nHEst self)) (nconds self)
                     (fun t k c => if (c <? nconds self)%nat
                                   then default (Fin 0) (cell (design_c self c) t k)
                                   else Fin 0)))
            (set_cond
               (imap (fun c d => if (c <? nconds self)%nat
                                 then put_model (design_c self c) d else d)
                     (imap (fun c d => if (c <? nconds self)%nat
                                       then put_model (design_c self c) d else d)
                           (cond self)))
               self)).
  unfold s1, built_upto. apply state_eq; [reflexivity|].
  apply list_eq. intros c. rewrite !list_lookup_imap.
  destruct (cond self !! c) as [d|]; [|reflexivity]. cbn [fmap option_fmap option_map].
  destruct (c <? nconds self)%nat; reflexivity.
Qed.

Lemma X8_getFIRmodel_idempotent_witness :
  getFIRmodel Example.obj1 = (Ok tt, Example.obj1).
Proof.
  apply (X8_getFIRmodel_idempotent Example.obj0 Example.obj1).
  - repeat split.
  - intros H; discriminate H.
  - cbn; lia.
  - reflexivity.
Defined.

Section BuildFailure.


End BuildFailure.



Section Grid.

Lemma round_Z (z : Z) : Py.round (inject_Z z) = z.
Proof.
  unfold Py.round. rewrite Qfloor_Z.
  assert (inject_Z z - inject_Z z == 0) as E by ring.
  rewrite (Qcompare_comp _ _ E (1 # 2) (1 # 2) (Qeq_refl _)). reflexivity.
Qed.

Lemma fixZ_Z (z : Z) : fixZ (inject_Z z) = z.
Proof.
  unfold fixZ. rewrite Qfloor_Z, Qceiling_Z.
  destruct (Qle_bool 0 (inject_Z z)); reflexivity.
Qed.

(** On a grid where [TR] is [n] steps [ER] and [ER] is [N] tenths of a
    millisecond, the acquisition time of sample [t] is [t*n*N] tenths. *)
Lemma trScale_on_grid (TR ER : Q) (n N : Z) (t : nat) :
  TR == inject_Z n * ER -> ER * 10000 == inject_Z N ->
  Spec.trScale TR t = Fin (inject_Z (Z.of_nat t * n * N) / 10000).
Proof.
  intros HTR HER. rewrite trScale_Fin. do 3 f_equal.
  rewrite <- (fixZ_Z (Z.of_nat t * n * N)). apply fixZ_comp.
  rewrite !inject_Z_mult, HTR, <- HER. ring.
Qed.

(** On the same grid the target of lag [k] of an event is
    [(round(onset/ER) + k - nPreStim) * N] tenths. *)
Lemma target_on_grid (ER : Q) (N nPre : Z) (onset : Q) (k : nat) :
  ER * 10000 == inject_Z N -> N <> 0%Z ->
  Spec.target ER nPre onset k =
  Fin (inject_Z ((Py.round (onset / ER) + Z.of_nat k - nPre) * N) / 10000).
Proof.
  intros HER HN.
  assert (~ ER == 0) as Hnz.
  { intros E. apply HN. apply inject_Z_injective. rewrite <- HER, E. reflexivity. }
  unfold Spec.target, Spec.rounded_onset. cbn [fdiv].
  apply Qeq_bool_false_iff in Hnz as ->. cbn. do 3 f_equal.
  rewrite <- (round_Z ((Py.round (onset / ER) + Z.of_nat k - nPre) * N)).
  apply round_comp.
  rewrite inject_Z_mult. unfold Z.sub.
  rewrite !inject_Z_plus, !inject_Z_opp, <- HER. ring.
Qed.

Lemma match_on_grid (TR ER : Q) (n N nPre : Z) (onset : Q) (t k : nat) :
  TR == inject_Z n * ER -> ER * 10000 == inject_Z N -> N <> 0%Z ->
  feqb (Spec.trScale TR t) (Spec.target ER nPre onset k) = true <->
  (Z.of_nat t * n = Py.round (onset / ER) + Z.of_nat k - nPre)%Z.
Proof.
  intros HTR HER HN.
  rewrite (trScale_on_grid TR ER n N t HTR HER), (target_on_grid ER N nPre onset k HER HN).
  cbn [feqb]. rewrite Qeq_bool_true_iff. unfold Qdiv.
  split.
  - intros E. apply Qmult_inj_r in E; [|discriminate].
    rewrite inject_Z_injective in E. apply Z.mul_cancel_r in E; [exact E|exact HN].
  - intros E. rewrite <- E. reflexivity.
Qed.

End Grid.

(** X10: when [TR] is a non-zero whole number [n] of steps [ER] and [ER] is
    a whole number of tenths of a millisecond, the design matrix is the
    exact FIR indicator: the cell [(t, k)] of a condition is 1 if and only
    if one of its events has [round(onset/ER) = t*n - k + nPreStim]. *)
Theorem X10_design_matrix_on_grid (self : HrfRetrieval) (n N : Z) :
  wf_obj self -> (0 <= nHEst self)%Z ->
  TR self == inject_Z n * ER self -> n <> 0%Z ->
  ER self * 10000 == inject_Z N -> N <> 0%Z ->
  exists self',
    getFIRmodel self = (Ok tt, self') /\
    forall c code, c_codes self !! c = Some code ->
      exists d trE,
        cond self' !! c = Some d /\ model_ d = Some trE /\
        forall t k, (t < ntps self)%nat -> (k < Z.to_nat (nHEst self))%nat ->
          (cell trE t k = Some (Fin 1) <->
           exists i onset, Spec.event_of self code i onset /\
             (Py.round (onset / ER self) =
              Z.of_nat t * n - Z.of_nat k + nPreStim self)%Z).
Proof.
  intros Hwf HnH HTR Hn HER HN.
  assert (~ TR self == 0) as HTR0.
  { intros E. rewrite E in HTR.
    assert (~ ER self == 0) as Hnz.
    { intros E'. apply HN. apply inject_Z_injective. rewrite <- HER, E'. reflexivity. }
    assert (~ inject_Z n == 0) as Hn'.
    { change 0 with (inject_Z 0). rewrite inject_Z_injective. exact Hn. }
    symmetry in HTR. apply Qmult_integral in HTR as [?|?]; contradiction. }
  exists (built_upto self (nconds self)).
  split; [apply getFIRmodel_eq; assumption|].
  intros c code Hc. destruct Hwf as (Hcodes & Hcond & _).
  apply lookup_lt_Some in Hc as Hlt.
  destruct (lookup_lt_is_Some_2 (cond self) c) as [d Hd]; [lia|].
  exists (put_model (design_c self c) d), (design_c self c).
  split.
  { change (cond (built_upto self (nconds self)))
      with (imap (fun c d => if (c <? nconds self)%nat
                             then put_model (design_c self c) d else d) (cond self)).
    rewrite list_lookup_imap, Hd. cbn [fmap option_fmap option_map].
    assert ((c <? nconds self)%nat = true) as -> by (apply Nat.ltb_lt; lia).
    reflexivity. }
  split; [reflexivity|].
  unfold design_c. rewrite Hc. change (default 0%Z (Some code)) with code.
  intros t k Ht Hk. unfold design_matrix.
  erewrite cell_hit_matrix;
    [|rewrite list_lookup_fmap, lookup_seq_lt by exact Ht; reflexivity|exact Hk].
  cbn [Nat.add].
  transitivity (exists i onset, Spec.event_of self code i onset /\
                  feqb (Spec.trScale (TR self) t)
                       (Spec.target (ER self) (nPreStim self) onset k) = true).
  - rewrite <- hit_iff_event. destruct (existsb _ _); split; auto; discriminate.
  - split; intros (i & onset & Hev & H); exists i, onset; (split; [exact Hev|]).
    + apply (match_on_grid _ _ n N) in H; [lia|assumption..].
    + apply (match_on_grid _ _ n N); [assumption..|lia].
Qed.

Lemma X10_design_matrix_on_grid_witness :
  wf_obj Example.obj0 /\ (0 <= nHEst Example.obj0)%Z /\
  TR Example.obj0 == inject_Z 1 * ER Example.obj0 /\ 1%Z <> 0%Z /\
  ER Example.obj0 * 10000 == inject_Z 20000 /\ 20000%Z <> 0%Z /\
  exists self',
    getFIRmodel Example.obj0 = (Ok tt, self') /\
    forall c code, c_codes Example.obj0 !! c = Some code ->
      exists d trE,
        cond self' !! c = Some d /\ model_ d = Some trE /\
        forall t k, (t < ntps Example.obj0)%nat ->
          (k < Z.to_nat (nHEst Example.obj0))%nat ->
          (cell trE t k = Some (Fin 1) <->
           exists i onset, Spec.event_of Example.obj0 code i onset /\
             (Py.round (onset / ER Example.obj0) =
              Z.of_nat t * 1 - Z.of_nat k + nPreStim Example.obj0)%Z).
Proof.
  split; [repeat split|]. split; [cbn; lia|]. split; [reflexivity|].
  split; [lia|]. split; [reflexivity|]. split; [lia|].
  apply (X10_design_matrix_on_grid Example.obj0 1 20000).
  - repeat split.
  - cbn; lia.
  - reflexivity.
  - lia.
  - reflexivity.
  - lia.
Defined.

Section PipelineRuns.


End PipelineRuns.



Section NoPrestim.



End NoPrestim.



Section FiniteSums.

Lemma fsum_Fin (l : list Q) : fsum (map Fin l) = Fin (Qsum l).
Proof.
  induction l as [|a l IH]; [reflexivity|].
  cbn [fmap list_fmap]. change (fsum (Fin a :: map Fin l)) with (fadd (Fin a) (fsum (map Fin l))).
  rewrite IH. reflexivity.
Qed.

Lemma Qsum_ext {A} (f g : A -> Q) (l : list A) :
  (forall x, x ∈ l -> f x == g x) -> Qsum (map f l) == Qsum (map g l).
Proof.
  induction l as [|a l IH]; intros H; [reflexivity|].
  cbn [fmap list_fmap]. change (Qsum (?x :: ?l')) with (x + Qsum l').
  assert (f a == g a) as Ea by apply H, list_elem_of_here.
  assert (Qsum (map f l) == Qsum (map g l)) as El.
  { apply IH. intros x Hx. apply H. apply list_elem_of_further, Hx. }
  rewrite Ea, El. reflexivity.
Qed.

Lemma Qsum_shift {A} (f : A -> Q) (m : Q) (l : list A) :
  Qsum (map (fun x => f x + - m) l) ==
  Qsum (map f l) - inject_Z (Z.of_nat (length l)) * m.
Proof.
  induction l as [|a l IH]; [cbn; ring|].
  cbn [fmap list_fmap length]. change (Qsum (?x :: ?l')) with (x + Qsum l').
  rewrite IH, Nat2Z.inj_succ. unfold Z.succ. rewrite inject_Z_plus. ring.
Qed.

Lemma fsum_map_Fin {A} (f : A -> npfloat) (g : A -> Q) (l : list A) :
  (forall x, x ∈ l -> exists q, f x = Fin q /\ q == g x) ->
  exists s, fsum (map f l) = Fin s /\ s == Qsum (map g l).
Proof.
  induction l as [|a l IH]; intros H.
  - exists 0. split; reflexivity.
  - destruct IH as (s & Hs & Es).
    { intros x Hx. apply H. apply list_elem_of_further, Hx. }
    destruct (H a) as (q & Hq & Eq); [apply list_elem_of_here|].
    exists (q + s). cbn [fmap list_fmap].
    change (fsum (f a :: map f l)) with (fadd (f a) (fsum (map f l))).
    rewrite Hq, Hs. split; [reflexivity|].
    change (Qsum (map g (a :: l))) with (g a + Qsum (map g l)).
    rewrite Eq, Es. reflexivity.
Qed.

Lemma mean_map_Fin {A} (f : A -> npfloat) (g : A -> Q) (l : list A) :
  l <> [] ->
  (forall x, x ∈ l -> exists q, f x = Fin q /\ q == g x) ->
  exists b, mean (map f l) = Fin b /\ b == Qmean (map g l).
Proof.
  intros Hne H. destruct (fsum_map_Fin f g l H) as (s & Hs & Es).
  unfold mean. rewrite Hs, length_fmap. cbn [fdiv].
  assert (~ inject_Z (Z.of_nat (length l)) == 0) as Hn.
  { change 0 with (inject_Z 0). rewrite inject_Z_injective.
    destruct l; [contradiction|cbn [length]; lia]. }
  apply Qeq_bool_false_iff in Hn as Hb. rewrite Hb.
  eexists. split; [reflexivity|].
  unfold Qmean. rewrite length_fmap, Es. reflexivity.
Qed.

End FiniteSums.

Section SelectiveAverage.

Lemma inner_selected (qs : list Q) (b : list npfloat) :
  Forall binary b ->
  exists s, inner (map Fin qs) b = Fin s /\ s == Qsum (selected qs b).
Proof.
  intros Hb. revert qs. induction Hb as [|x b Hx Hb IH]; intros qs.
  - exists 0. destruct qs; split; reflexivity.
  - destruct qs as [|q qs]; [exists 0; split; reflexivity|].
    destruct (IH qs) as (s & Hs & Es). unfold inner in *.
    cbn [fmap list_fmap zip_with].
    change (fsum (?y :: ?l)) with (fadd y (fsum l)). rewrite Hs.
    destruct Hx as [-> | ->].
    + exists (q * 0 + s). split; [reflexivity|].
      change (selected (q :: qs) (Fin 0 :: b)) with (selected qs b).
      rewrite Es. ring.
    + exists (q * 1 + s). split; [reflexivity|].
      change (selected (q :: qs) (Fin 1 :: b)) with (q :: selected qs b).
      change (Qsum (q :: ?l)) with (q + Qsum l).
      rewrite Es. ring.
Qed.

Lemma fsum_selected (qs : list Q) (b : list npfloat) :
  Forall binary b -> length qs = length b ->
  exists c, fsum b = Fin c /\ c == inject_Z (Z.of_nat (length (selected qs b))).
Proof.
  intros Hb. revert qs. induction Hb as [|x b Hx Hb IH]; intros qs Hlen.
  - exists 0. destruct qs; split; reflexivity.
  - destruct qs as [|q qs]; [discriminate|]. injection Hlen as Hlen.
    destruct (IH qs Hlen) as (c & Hc & Ec).
    change (fsum (x :: b)) with (fadd x (fsum b)). rewrite Hc.
    destruct Hx as [-> | ->].
    + exists (0 + c). split; [reflexivity|].
      change (selected (q :: qs) (Fin 0 :: b)) with (selected qs b).
      rewrite Ec. ring.
    + exists (1 + c). split; [reflexivity|].
      change (selected (q :: qs) (Fin 1 :: b)) with (q :: selected qs b).
      cbn [length]. rewrite Nat2Z.inj_succ. unfold Z.succ.
      rewrite inject_Z_plus, Ec. change (inject_Z 1) with 1. ring.
Qed.

Lemma col_rows_binary (m : matrix) (k : nat) :
  Forall (Forall binary) (rows m) -> Forall binary (col k m).
Proof.
  intros H. unfold col. apply Forall_fmap.
  eapply Forall_impl; [exact H|]. intros r Hr. cbn.
  destruct (r !! k) as [x|] eqn:Hk; cbn; [|left; reflexivity].
  eapply Forall_lookup_1 in Hk; [exact Hk|exact Hr].
Qed.

Lemma mean_hrf_selected (qs : list Q) (m : matrix) (k : nat) :
  Forall (Forall binary) (rows m) -> length qs = length (rows m) ->
  selected qs (col k m) <> [] ->
  exists q, Spec.mean_hrf (map Fin qs) m k = Fin q /\
    q == Qmean (selected qs (col k m)).
Proof.
  intros Hbin Hlen Hne.
  pose proof (col_rows_binary m k Hbin) as Hb.
  destruct (inner_selected qs _ Hb) as (s & Hs & Es).
  destruct (fsum_selected qs (col k m) Hb) as (c & Hc & Ec).
  { unfold col. rewrite length_fmap. exact Hlen. }
  unfold Spec.mean_hrf. rewrite Hs, Hc. cbn [fdiv].
  assert (~ c == 0) as Hn.
  { rewrite Ec. change 0 with (inject_Z 0). rewrite inject_Z_injective.
    destruct (selected qs (col k m)); [contradiction|cbn [length]; lia]. }
  apply Qeq_bool_false_iff in Hn as Hf. rewrite Hf.
  eexists. split; [reflexivity|].
  unfold Qmean. rewrite Es, Ec. reflexivity.
Qed.

End SelectiveAverage.

(** X13: the averaging path is a selective average with baseline
    correction.  For a finite timecourse [qs] of one voxel and a 0/1 design
    matrix, when lag [k] and every lag with [tscale < 0] have a matched
    acquisition time and there is such a lag, the value stored at lag [k]
    is finite: it is the mean of the samples at the times matched at lag
    [k], minus the mean over the lags with [tscale < 0] of the same
    means. *)
Theorem X13_average_is_selective_mean (qs : list Q) (tscale : list Q)
    (m : matrix) (k : nat) :
  length qs = nrows m -> length (rows m) = nrows m ->
  length tscale = ncols m ->
  Forall (Forall binary) (rows m) ->
  (k < ncols m)%nat ->
  selected qs (col k m) <> [] ->
  Spec.prestim tscale <> [] ->
  (forall j, j ∈ Spec.prestim tscale -> selected qs (col j m) <> []) ->
  exists est q,
    average_of (Arr1 (map Fin qs)) (map (fun x => Py.lt x 0) tscale) m
      = Ok (Arr1 est) /\
    est !! k = Some (Fin q) /\
    q == Qmean (selected qs (col k m)) -
         Qmean (map (fun j => Qmean (selected qs (col j m))) (Spec.prestim tscale)).
Proof.
  intros Hlen Hrows Hts Hbin Hk Hsel Hpre Hall.
  assert (length qs = length (rows m)) as Hlen' by congruence.
  destruct (mean_hrf_selected qs m k Hbin Hlen' Hsel) as (q & Hq & Eq).
  destruct (mean_map_Fin (Spec.mean_hrf (map Fin qs) m)
              (fun j => Qmean (selected qs (col j m))) (Spec.prestim tscale) Hpre)
    as (b & Hb & Eb).
  { intros j Hj. apply (mean_hrf_selected qs m j Hbin Hlen' (Hall j Hj)). }
  eexists _, (q + - b). split.
  { apply average_of_1d; [rewrite length_fmap; exact Hlen|exact Hts]. }
  split.
  - rewrite list_lookup_fmap, lookup_seq_lt by exact Hk. cbn [fmap option_fmap option_map Nat.add].
    unfold Spec.baseline. rewrite Hq, Hb. reflexivity.
  - rewrite Eq, Eb. reflexivity.
Qed.

Lemma X13_average_is_selective_mean_witness :
  exists est q,
    average_of (Arr1 (map Fin [3; 1; 5])) (map (fun x => Py.lt x 0) [-2; 0])
      {| nrows := 3; ncols := 2;
         rows := [[Fin 1; Fin 0]; [Fin 0; Fin 1]; [Fin 0; Fin 1]] |}
      = Ok (Arr1 est) /\
    est !! 1%nat = Some (Fin q) /\ q == 0.
Proof.
  destruct (X13_average_is_selective_mean [3; 1; 5] [-2; 0]
              {| nrows := 3; ncols := 2;
                 rows := [[Fin 1; Fin 0]; [Fin 0; Fin 1]; [Fin 0; Fin 1]] |} 1)
    as (est & q & H1 & H2 & H3).
  - reflexivity.
  - reflexivity.
  - reflexivity.
  - repeat first [apply Forall_nil_2 | apply Forall_cons_2 | (left; reflexivity) | (right; reflexivity)].
  - cbn; lia.
  - discriminate.
  - discriminate.
  - intros j Hj. vm_compute in Hj. apply list_elem_of_singleton in Hj as ->. discriminate.
  - exists est, q. split; [exact H1|]. split; [exact H2|].
    rewrite H3. reflexivity.
Defined.

Section Demeaning.

Lemma column_mean_Fin (T : tensor) (n0 n1 n2 j : nat) :
  (0 < n0)%nat -> (j < n1 * n2)%nat ->
  (forall t k c, (t < n0)%nat -> (k < n1)%nat -> (c < n2)%nat ->
     exists q, tcell T t k c = Fin q) ->
  (j mod n1 < n1)%nat /\ (j / n1 < n2)%nat /\
  column_mean T n0 n1 j =
  Fin (Qsum (map (fun t => qval (tcell T t (j mod n1) (j / n1))) (seq 0 n0))
       / inject_Z (Z.of_nat n0)).
Proof.
  intros Hn0 Hj Hfin.
  assert (n1 <> 0)%nat as Hn1 by (intros ->; lia).
  assert (j mod n1 < n1)%nat as Hk by (apply Nat.mod_upper_bound; exact Hn1).
  assert (j / n1 < n2)%nat as Hc by (apply Nat.Div0.div_lt_upper_bound; lia).
  split; [exact Hk|]. split; [exact Hc|].
  unfold column_mean.
  replace (map (fun t => tcell T t (j mod n1) (j / n1)) (seq 0 n0))
    with (map Fin (map (fun t => qval (tcell T t (j mod n1) (j / n1))) (seq 0 n0))).
  2:{ rewrite <- list_fmap_compose. apply list_fmap_ext.
      intros i t [-> Ht]%lookup_seq.
      destruct (Hfin _ _ _ Ht Hk Hc) as (q & Hq).
      cbn [compose Nat.add]. rewrite Hq. reflexivity. }
  rewrite fsum_Fin. cbn [fdiv].
  assert (~ inject_Z (Z.of_nat n0) == 0) as Hn.
  { change 0 with (inject_Z 0). rewrite inject_Z_injective. lia. }
  apply Qeq_bool_false_iff in Hn as ->. reflexivity.
Qed.

End Demeaning.

(** X14: the design that the FIR path hands to [pinv].  For a model array
    of finite cells with at least one acquisition time, it has one row per
    time and one column per lag and condition plus one; every column but
    the last is demeaned, so that it sums to zero, and the last column
    holds ones. *)
Theorem X14_fir_design_columns (T : tensor) (n0 n1 n2 : nat) :
  shape T = (n0, n1, n2) -> (0 < n0)%nat ->
  (forall t k c, (t < n0)%nat -> (k < n1)%nat -> (c < n2)%nat ->
     exists q, tcell T t k c = Fin q) ->
  exists design,
    fir_design T = Ok design /\
    nrows design = n0 /\ ncols design = (n1 * n2 + 1)%nat /\
    (forall j, (j < n1 * n2)%nat ->
       exists q, fsum (col j design) = Fin q /\ q == 0) /\
    col (n1 * n2) design = replicate n0 (Fin 1).
Proof.
  intros Hs Hn0 Hfin. eexists. split; [apply (fir_design_eq T n0 n1 n2 Hs Hn0)|].
  split; [reflexivity|]. split; [reflexivity|]. split.
  - intros j Hj. rewrite col_mbuild by lia.
    destruct (column_mean_Fin T n0 n1 n2 j Hn0 Hj Hfin) as (Hk & Hc & ->).
    set (x := fun t => qval (tcell T t (j mod n1) (j / n1))).
    set (mu := Qsum (map x (seq 0 n0)) / inject_Z (Z.of_nat n0)).
    replace (map (fun t => if (j <? n1 * n2)%nat
                           then fsub (tcell T t (j mod n1) (j / n1)) (Fin mu)
                           else Fin 1) (seq 0 n0))
      with (map Fin (map (fun t => x t + - mu) (seq 0 n0))).
    2:{ rewrite <- list_fmap_compose. apply list_fmap_ext.
        intros i t [-> Ht]%lookup_seq.
        destruct (Hfin _ _ _ Ht Hk Hc) as (q & Hq).
        cbn [compose Nat.add]. apply Nat.ltb_lt in Hj as ->. unfold x.
        rewrite Hq. reflexivity. }
    rewrite fsum_Fin. eexists. split; [reflexivity|].
    rewrite Qsum_shift, length_seq. unfold mu. field.
    change 0 with (inject_Z 0). rewrite inject_Z_injective. lia.
  - rewrite col_mbuild by lia.
    apply list_eq. intros i. rewrite list_lookup_fmap.
    destruct (Nat.lt_ge_cases i n0) as [Hi|Hi].
    + rewrite lookup_seq_lt, lookup_replicate_2 by exact Hi.
      cbn [fmap option_fmap option_map]. rewrite Nat.ltb_irrefl. reflexivity.
    + rewrite lookup_seq_ge by exact Hi.
      symmetry. apply lookup_ge_None. rewrite length_replicate. exact Hi.
Qed.

Lemma X14_fir_design_columns_witness :
  exists design,
    fir_design Example.T1 = Ok design /\
    nrows design = 8%nat /\ ncols design = 7%nat /\
    (forall j, (j < 6)%nat -> exists q, fsum (col j design) = Fin q /\ q == 0) /\
    col 6 design = replicate 8 (Fin 1).
Proof.
  apply (X14_fir_design_columns Example.T1 8 3 2).
  - reflexivity.
  - lia.
  - intros t k c Ht Hk Hc.
    assert (match tcell Example.T1 t k c with Fin _ => True | _ => False end) as H.
    { do 8 (destruct t as [|t]; [do 3 (destruct k as [|k]; [do 2 (destruct c as [|c]; [exact I|]); lia|]); lia|]).
      lia. }
    destruct (tcell Example.T1 t k c) as [q| | |]; [exists q; reflexivity|contradiction..].
Defined.

Section Keeps.

Context {X : Type} (f : cond_dict -> X).

Lemma keeps_retM {A} (a : A) : keeps f (retM a).
Proof. intros s. split; reflexivity. Qed.

Lemma keeps_bindM {A B} (m : M A) (k : A -> M B) :
  keeps f m -> (forall a, keeps f (k a)) -> keeps f (bindM m k).
Proof.
  intros Hm Hk s. unfold bindM. destruct (Hm s) as [H1 H2].
  destruct (m s) as [[a|e] s']; cbn [snd] in *.
  - destruct (Hk a s') as [H1' H2']. split; congruence.
  - split; assumption.
Qed.

Lemma keeps_lift {A} (r : result A) : keeps f (lift r).
Proof. intros s. split; reflexivity. Qed.

Lemma keeps_gets {A} (g : HrfRetrieval -> A) : keeps f (gets g).
Proof. intros s. split; reflexivity. Qed.

Lemma keeps_get_model : keeps f get_model.
Proof. intros s. unfold get_model. destruct (model s); split; reflexivity. Qed.

Lemma keeps_cond_setitem (c : nat) (put : cond_dict -> cond_dict) :
  (forall d, f (put d) = f d) -> keeps f (cond_setitem c put).
Proof.
  intros Hput s. unfold cond_setitem.
  destruct (cond s !! c) as [d|] eqn:Hd; cbn [snd].
  - split; [reflexivity|].
    change (cond (set_cond ?cs s)) with cs.
    rewrite list_fmap_insert, Hput. apply list_insert_id.
    rewrite list_lookup_fmap, Hd. reflexivity.
  - split; reflexivity.
Qed.

Lemma keeps_mfor {A} (l : list A) (body : A -> M unit) :
  (forall a, keeps f (body a)) -> keeps f (mfor l body).
Proof.
  intros Hb. induction l as [|a l IH]; cbn [mfor].
  - apply keeps_retM.
  - apply keeps_bindM; [apply Hb|intros _; exact IH].
Qed.

End Keeps.

Section Frame.

Variable pinv : matrix -> option matrix.

Lemma keeps_FIR_path :
  keeps but_FIR_hrf
     (T <~ get_model ;;
      design <~ lift (fir_design T) ;;
      p <~ lift (call_pinv pinv design) ;;
      tc <~ gets tc ;;
      b_est <~ lift (dot_nd p (T_ tc)) ;;
      nconds <~ gets nconds ;;
      nHEst <~ gets nHEst ;;
      mfor (seq 0 nconds) (fun c =>
        cond_setitem c
          (put_FIR_hrf (T_ (slice_nd b_est (Z.to_nat (Z.of_nat c * nHEst))
                                     (Z.to_nat (Z.of_nat c * nHEst + nHEst)))))))%py.
Proof.
  apply keeps_bindM; [apply keeps_get_model|intros T].
  apply keeps_bindM; [apply keeps_lift|intros design].
  apply keeps_bindM; [apply keeps_lift|intros p].
  apply keeps_bindM; [apply keeps_gets|intros tc].
  apply keeps_bindM; [apply keeps_lift|intros b_est].
  apply keeps_bindM; [apply keeps_gets|intros n].
  apply keeps_bindM; [apply keeps_gets|intros nH].
  apply keeps_mfor. intros c. apply keeps_cond_setitem. reflexivity.
Qed.

Lemma keeps_average_path :
  keeps but_average_hrf
     (tscale <~ gets tscale ;;
      nconds <~ gets nconds ;;
      mfor (seq 0 nconds) (fun c =>
        T <~ get_model ;;
        model <~ lift (get_plane c T) ;;
        tc <~ gets tc ;;
        avg <~ lift (average_of tc (map (fun x => Py.lt x 0) tscale) model) ;;
        cond_setitem c (put_average_hrf avg)))%py.
Proof.
  apply keeps_bindM; [apply keeps_gets|intros ts].
  apply keeps_bindM; [apply keeps_gets|intros n].
  apply keeps_mfor. intros c.
  apply keeps_bindM; [apply keeps_get_model|intros T].
  apply keeps_bindM; [apply keeps_lift|intros m].
  apply keeps_bindM; [apply keeps_gets|intros tc].
  apply keeps_bindM; [apply keeps_lift|intros avg].
  apply keeps_cond_setitem. reflexivity.
Qed.

Lemma fmap_proj {A B C} (g : B -> C) (f : A -> B) (l l' : list A) :
  map f l = map f l' -> map (fun x => g (f x)) l = map (fun x => g (f x)) l'.
Proof.
  intros H. change (fun x => g (f x)) with (g ∘ f).
  rewrite !list_fmap_compose, H. reflexivity.
Qed.

End Frame.

(** X15: what a call of [estimateHRF] can change, whatever its outcome
    (a return or any exception, also one raised half-way through the
    conditions).  It sets the attribute [metric]; of the condition records
    it keeps the number, the labels and the design matrices; it changes
    ['FIR_hrf'] entries only for the metric ['FIR'] and ['average_hrf']
    entries only for the metric ['average']; every other attribute of the
    object is as before. *)
Theorem X15_estimateHRF_frame (pinv : matrix -> option matrix)
    (metric : string) (self : HrfRetrieval) :
  let self' := (estimateHRF pinv metric self).2 in
  set_cond [] self' = set_cond [] (set_metric (Some metric) self) /\
  map label (cond self') = map label (cond self) /\
  map model_ (cond self') = map model_ (cond self) /\
  (metric <> "FIR"%string ->
     map FIR_hrf (cond self') = map FIR_hrf (cond self)) /\
  (metric <> "average"%string ->
     map average_hrf (cond self') = map average_hrf (cond self)).
Proof.
  cbn zeta. rewrite estimateHRF_unfold.
  destruct (String.eqb_spec metric "FIR") as [->|HF].
  - destruct (keeps_FIR_path pinv (set_metric (Some "FIR"%string) self)) as [H1 H2].
    change (cond (set_metric _ self)) with (cond self) in H2.
    split; [exact H1|].
    split; [exact (fmap_proj (fun p => p.1.1) but_FIR_hrf _ _ H2)|].
    split; [exact (fmap_proj (fun p => p.1.2) but_FIR_hrf _ _ H2)|].
    split; [intros H; contradiction|].
    intros _. exact (fmap_proj (fun p => p.2) but_FIR_hrf _ _ H2).
  - destruct (String.eqb_spec metric "average") as [->|HA].
    + destruct (keeps_average_path (set_metric (Some "average"%string) self)) as [H1 H2].
      change (cond (set_metric _ self)) with (cond self) in H2.
      split; [exact H1|].
      split; [exact (fmap_proj (fun p => p.1.1) but_average_hrf _ _ H2)|].
      split; [exact (fmap_proj (fun p => p.1.2) but_average_hrf _ _ H2)|].
      split; [|intros H; contradiction].
      intros _. exact (fmap_proj (fun p => p.2) but_average_hrf _ _ H2).
    + repeat split; reflexivity.
Qed.

Section Again.

Variable pinv : matrix -> option matrix.

Lemma model_built_put (self : HrfRetrieval) (T : tensor)
    (put : nat -> cond_dict -> cond_dict) (m : option string) :
  (forall c d, model_ (put c d) = model_ d) ->
  model_built self T ->
  model_built (set_cond (imap put (cond self)) (set_metric m self)) T.
Proof.
  intros Hput (HT & Hs & HnH & Hlen & Hplanes).
  split; [exact HT|]. split; [exact Hs|]. split; [exact HnH|].
  change (cond (set_cond ?cs _)) with cs.
  split; [rewrite length_imap; exact Hlen|].
  intros c d'. rewrite list_lookup_imap.
  destruct (cond self !! c) as [d|] eqn:Hd; [|discriminate].
  intros [= <-]. rewrite Hput. apply (Hplanes c d Hd).
Qed.

Lemma FIR_returns_inv (self s1 : HrfRetrieval) (T : tensor) :
  model self = Some T -> estimateHRF pinv "FIR" self = (Ok tt, s1) ->
  exists design P beta,
    fir_design T = Ok design /\ pinv design = Some P /\
    dot_nd P (T_ (tc self)) = Ok beta.
Proof.
  intros HT H. rewrite estimateHRF_unfold in H.
  change (String.eqb "FIR" "FIR") with true in H. cbv iota in H.
  rewrite (bindM_get_model T) in H by exact HT.
  destruct (fir_design T) as [design|e] eqn:Hd; [|discriminate H].
  rewrite (bindM_lift_Ok _ design) in H by reflexivity.
  unfold call_pinv in H.
  destruct (pinv design) as [P|] eqn:HP; [|discriminate H].
  rewrite (bindM_lift_Ok _ P) in H by reflexivity.
  rewrite bindM_gets in H.
  change (tc (set_metric _ self)) with (tc self) in H.
  destruct (dot_nd P (T_ (tc self))) as [beta|e] eqn:Hb; [|discriminate H].
  exists design, P, beta. auto.
Qed.

Lemma imap_imap_put (put put' : nat -> cond_dict -> cond_dict) (cs : list cond_dict) :
  imap put (imap put' cs) = imap (fun c d => put c (put' c d)) cs.
Proof.
  apply list_eq. intros c. rewrite !list_lookup_imap.
  destruct (cs !! c); reflexivity.
Qed.

End Again.

(** X16: the two estimates do not depend on the order of the two calls.
    On an object whose design matrices are built and on which
    [estimateHRF('FIR')] returns, ['FIR'] then ['average'] and ['average']
    then ['FIR'] both return and leave the same condition records, holding
    both estimates; the two objects differ in the attribute [metric]
    alone, which names the last call. *)
Theorem X16_estimates_commute (pinv : matrix -> option matrix)
    (self sF : HrfRetrieval) (T : tensor) :
  model_built self T -> shape_last (tc self) = ntps self ->
  length (tscale self) = Z.to_nat (nHEst self) ->
  estimateHRF pinv "FIR" self = (Ok tt, sF) ->
  exists sA sFA sAF,
    estimateHRF pinv "average" self = (Ok tt, sA) /\
    estimateHRF pinv "average" sF = (Ok tt, sFA) /\
    estimateHRF pinv "FIR" sA = (Ok tt, sAF) /\
    cond sFA = cond sAF /\
    map FIR_hrf (cond sFA) = map FIR_hrf (cond sF) /\
    map average_hrf (cond sFA) = map average_hrf (cond sA) /\
    set_metric None sFA = set_metric None sAF /\
    Hrf.metric sFA = Some "average"%string /\
    Hrf.metric sAF = Some "FIR"%string.
Proof.
  intros HT Hshape Hlen HF.
  pose proof HT as (Hm & _ & _ & Hlc & _).
  destruct (FIR_returns_inv pinv self sF T Hm HF) as (design & P & beta & Hd & HP & Hb).
  rewrite (FIR_path_eq pinv self T design P beta Hm Hd HP Hb Hlc) in HF.
  injection HF as <-.
  set (putF := fun c : nat =>
         put_FIR_hrf (T_ (slice_nd beta (Z.to_nat (Z.of_nat c * nHEst self))
                            (Z.to_nat (Z.of_nat c * nHEst self + nHEst self))))).
  set (putA := fun c : nat =>
         put_average_hrf
           (average_estimate (tc self) (tscale self)
              (mbuild (ntps self) (Z.to_nat (nHEst self)) (fun t k => tcell T t k c)))).
  pose proof (model_built_put self T putF (Some "FIR"%string)
                (fun _ _ => eq_refl) HT) as HTF.
  pose proof (model_built_put self T putA (Some "average"%string)
                (fun _ _ => eq_refl) HT) as HTA.
  eexists _, _, _.
  split; [apply (estimateHRF_average_eq pinv self T HT Hshape Hlen)|].
  split; [apply (estimateHRF_average_eq pinv _ T HTF Hshape Hlen)|].
  split.
  { apply (FIR_path_eq pinv _ T design P beta (proj1 HTA) Hd HP Hb).
    change (cond (set_cond ?cs _)) with cs. rewrite length_imap. exact Hlc. }
  repeat progress change (cond (set_cond ?cs _)) with cs.
  change (nHEst (set_cond _ _)) with (nHEst self).
  change (tc (set_cond _ _)) with (tc self).
  change (tscale (set_cond _ _)) with (tscale self).
  change (ntps (set_cond _ _)) with (ntps self).
  fold putF putA.
  assert (imap putA (imap putF (cond self)) = imap putF (imap putA (cond self))) as E.
  { rewrite !imap_imap_put. reflexivity. }
  split; [exact E|].
  split.
  { rewrite imap_imap_put. apply list_eq. intros c.
    rewrite !list_lookup_fmap, !list_lookup_imap.
    destruct (cond self !! c); reflexivity. }
  split.
  { rewrite imap_imap_put. apply list_eq. intros c.
    rewrite !list_lookup_fmap, !list_lookup_imap.
    destruct (cond self !! c); reflexivity. }
  split; [|split; reflexivity].
  unfold set_metric, set_cond; cbn. rewrite E. reflexivity.
Qed.

Lemma X16_estimates_commute_witness :
  exists sA sFA sAF,
    estimateHRF Example.pinv3 "average" Example.obj3 = (Ok tt, sA) /\
    estimateHRF Example.pinv3 "average"
      (estimateHRF Example.pinv3 "FIR" Example.obj3).2 = (Ok tt, sFA) /\
    estimateHRF Example.pinv3 "FIR" sA = (Ok tt, sAF) /\
    cond sFA = cond sAF.
Proof.
  destruct (X16_estimates_commute Example.pinv3 Example.obj3
              (estimateHRF Example.pinv3 "FIR" Example.obj3).2 Example.T3)
    as (sA & sFA & sAF & H1 & H2 & H3 & H4 & _).
  - exact model_built_obj3.
  - reflexivity.
  - reflexivity.
  - reflexivity.
  - exists sA, sFA, sAF. auto.
Defined.

(** X17: a second call of [estimateHRF] with the same metric changes
    nothing.  On an object whose design matrices are built, when
    [estimateHRF(metric)] returns, calling it again on the object it left
    returns and leaves that object as it is. *)
Theorem X17_estimateHRF_idempotent (pinv : matrix -> option matrix)
    (metric : string) (self s1 : HrfRetrieval) (T : tensor) :
  model_built self T -> shape_last (tc self) = ntps self ->
  length (tscale self) = Z.to_nat (nHEst self) ->
  estimateHRF pinv metric self = (Ok tt, s1) ->
  estimateHRF pinv metric s1 = (Ok tt, s1).
Proof.
  intros HT Hshape Hlen H.
  pose proof HT as (Hm & _ & _ & Hlc & _).
  destruct (String.eqb_spec metric "FIR") as [->|HF].
  - destruct (FIR_returns_inv pinv self s1 T Hm H) as (design & P & beta & Hd & HP & Hb).
    rewrite (FIR_path_eq pinv self T design P beta Hm Hd HP Hb Hlc) in H.
    injection H as <-.
    etransitivity.
    { apply (FIR_path_eq pinv (set_cond _ (set_metric _ self)) T design P beta Hm Hd HP Hb).
      change (cond (set_cond ?cs _)) with cs. rewrite length_imap. exact Hlc. }
    change (cond (set_cond ?cs _)) with cs.
    change (nHEst (set_cond _ _)) with (nHEst self).
    rewrite imap_imap_put. reflexivity.
  - destruct (String.eqb_spec metric "average") as [->|HA].
    + rewrite (estimateHRF_average_eq pinv self T HT Hshape Hlen) in H.
      injection H as <-.
      etransitivity.
      { apply (estimateHRF_average_eq pinv _ T); [|exact Hshape|exact Hlen].
        apply model_built_put; [reflexivity|exact HT]. }
      change (cond (set_cond ?cs _)) with cs.
      change (nHEst (set_cond _ _)) with (nHEst self).
      change (tc (set_cond _ _)) with (tc self).
      change (tscale (set_cond _ _)) with (tscale self).
      change (ntps (set_cond _ _)) with (ntps self).
      rewrite imap_imap_put. reflexivity.
    + rewrite (estimateHRF_invalid pinv metric self HF HA) in H. discriminate H.
Qed.

Lemma X17_estimateHRF_idempotent_witness :
  let s1 := (estimateHRF Example.pinv3 "FIR" Example.obj3).2 in
  estimateHRF Example.pinv3 "FIR" s1 = (Ok tt, s1).
Proof.
  apply (X17_estimateHRF_idempotent Example.pinv3 "FIR" Example.obj3 _ Example.T3).
  - exact model_built_obj3.
  - reflexivity.
  - reflexivity.
  - reflexivity.
Defined.

Section FIROutcomes.

Lemma dot_nd_T (P : matrix) (tc : ndarray) :
  (ncols P = shape_last tc -> exists beta, dot_nd P (T_ tc) = Ok beta) /\
  (ncols P <> shape_last tc -> dot_nd P (T_ tc) = Raise ValueError).
Proof.
  destruct tc as [v|m]; cbn [T_ dot_nd shape_last]; unfold dot_mv, dot_mm;
    cbn [transpose nrows].
  - destruct (Nat.eqb_spec (ncols P) (length v)); split; intros H;
      try contradiction; [eexists|]; reflexivity.
  - destruct (Nat.eqb_spec (ncols P) (ncols m)); split; intros H;
      try contradiction; [eexists|]; reflexivity.
Qed.

Lemma fir_design_empty (T : tensor) (n1 n2 : nat) :
  shape T = (0%nat, n1, n2) -> fir_design T = Raise ValueError.
Proof. intros Hs. unfold fir_design, reshapeF. rewrite Hs. reflexivity. Qed.

End FIROutcomes.

(** X18: the outcomes of the FIR path on an object whose design matrices
    are built.  With no acquisition time the reshape of the model raises
    [ValueError].  Otherwise the design handed to [pinv] has one row per
    acquisition time and [nHEst * nconds + 1] columns; the call raises
    [LinAlgError] when [pinv] gives no result, [ValueError] when the result
    of [pinv] has not one column per acquisition time, and returns in the
    remaining case.  When it raises, it has only recorded the metric. *)
Theorem X18_FIR_outcomes (pinv : matrix -> option matrix)
    (self : HrfRetrieval) (T : tensor) :
  model_built self T -> shape_last (tc self) = ntps self ->
  let recorded := set_metric (Some "FIR"%string) self in
  (ntps self = 0%nat ->
     estimateHRF pinv "FIR" self = (Raise ValueError, recorded)) /\
  ((0 < ntps self)%nat ->
     exists design,
       fir_design T = Ok design /\ nrows design = ntps self /\
       ncols design = (Z.to_nat (nHEst self) * nconds self + 1)%nat /\
       (pinv design = None ->
          estimateHRF pinv "FIR" self = (Raise LinAlgError, recorded)) /\
       (forall P, pinv design = Some P -> ncols P <> ntps self ->
          estimateHRF pinv "FIR" self = (Raise ValueError, recorded)) /\
       (forall P, pinv design = Some P -> ncols P = ntps self ->
          exists self', estimateHRF pinv "FIR" self = (Ok tt, self'))).
Proof.
  intros HT Hshape recorded. pose proof HT as (Hm & Hs & _ & Hlc & _).
  split.
  - intros H0. rewrite H0 in Hs.
    rewrite estimateHRF_unfold. change (String.eqb "FIR" "FIR") with true. cbv iota.
    rewrite (bindM_get_model T) by exact Hm.
    rewrite (fir_design_empty T _ _ Hs). reflexivity.
  - intros Hpos. eexists. split; [apply (fir_design_eq T _ _ _ Hs Hpos)|].
    split; [reflexivity|]. split; [reflexivity|].
    set (design := mbuild _ _ _).
    assert (fir_design T = Ok design) as Hd by apply (fir_design_eq T _ _ _ Hs Hpos).
    split; [|split].
    + intros HP. rewrite estimateHRF_unfold.
      change (String.eqb "FIR" "FIR") with true. cbv iota.
      rewrite (bindM_get_model T) by exact Hm.
      rewrite (bindM_lift_Ok _ design) by exact Hd.
      unfold call_pinv. rewrite HP. reflexivity.
    + intros P HP Hne. rewrite estimateHRF_unfold.
      change (String.eqb "FIR" "FIR") with true. cbv iota.
      rewrite (bindM_get_model T) by exact Hm.
      rewrite (bindM_lift_Ok _ design) by exact Hd.
      rewrite (bindM_lift_Ok _ P) by (unfold call_pinv; rewrite HP; reflexivity).
      rewrite bindM_gets. change (tc (set_metric _ self)) with (tc self).
      rewrite (proj2 (dot_nd_T P (tc self))) by congruence. reflexivity.
    + intros P HP Heq.
      destruct (proj1 (dot_nd_T P (tc self))) as [beta Hb]; [congruence|].
      eexists. apply (FIR_path_eq pinv self T design P beta Hm Hd HP Hb Hlc).
Qed.

Lemma X18_FIR_outcomes_witness :
  exists self', estimateHRF Example.pinv3 "FIR" Example.obj3 = (Ok tt, self').
Proof.
  destruct (X18_FIR_outcomes Example.pinv3 Example.obj3 Example.T3)
    as [_ H].
  - exact model_built_obj3.
  - reflexivity.
  - destruct H as (design & _ & _ & _ & _ & _ & H); [cbn; lia|].
    apply (H Example.P3); reflexivity.
Defined.
